(** * Black-Scholes analytics and the Cox-Ross-Rubinstein lattice

    A shallow embedding of the two numerical cores of the notebooks:
    the class [CoxRossRubinsteinModel] (constructor, [moves], [paths]) and
    the functions [BlackOverK], [Black], [BlackImpliedVol],
    [BlackScholesPrice] and [BlackScholesTheta].

    Numbers are the real numbers of the Standard Library: the statements
    of the modules over [R] are about exact real arithmetic, not about
    IEEE rounding.  An operation that leaves the reals in NumPy (division
    by zero, logarithm of a non-positive number, square root of a
    negative number) is the outcome [Err NonFinite] of the [res] monad:
    NumPy goes on with [inf] or [nan] there, and the model over [R] does
    not follow it.  The [ValueError] that the bracketing root finder
    raises is an error of the monad as well.

    Where rounding decides a property, the pricing functions are
    modelled a second time on binary64 numbers, in the module [F64]. *)

From Stdlib Require Import Reals Ranalysis5 Lra Lia List ZArith Bool Psatz.
From Stdlib Require PrimFloat FloatOps SpecFloat QArith Qabs.
Import ListNotations.

Open Scope R_scope.

(** ** Outcomes of fallible code *)

Inductive err : Type :=
| NonFinite         (* the result is inf or nan in NumPy *)
| NoRootInBracket   (* brentq: f(a) and f(b) must have different signs *)
| RecursionLimit.   (* the recursion never reaches its base case *)

Inductive res (A : Type) : Type :=
| Ok (a : A)
| Err (e : err).

Arguments Ok {A} a.
Arguments Err {A} e.

Definition bind {A B : Type} (m : res A) (k : A -> res B) : res B :=
  match m with
  | Ok a => k a
  | Err e => Err e
  end.

Notation "x <- m ;; k" := (bind m (fun x => k))
  (at level 61, m at next level, right associativity).

Definition valof (m : res R) : R :=
  match m with
  | Ok v => v
  | Err _ => 0
  end.

(** ** The Cox-Ross-Rubinstein lattice *)

Module CRR.

Record CoxRossRubinsteinModel : Type := mkModel {
  S0 : R;     (* asset value at t=0 *)
  r  : R;     (* constant risk-free rate *)
  d  : R;     (* relative down move *)
  u  : R;     (* relative up move *)
  T  : R;     (* terminal time *)
  N  : nat    (* number of time steps from 0 to T *)
}.

Section Lattice.

Variable self : CoxRossRubinsteinModel.

(** [[ (1+d)**(k-i) * (1+u)**i for i in range(k+1) ]] *)
Definition gridRow (k : nat) : list R :=
  map (fun i => (1 + d self) ^ (k - i) * (1 + u self) ^ i) (seq 0 (k + 1)).

(** The constructor: [gridPoints] starts as [[ [1.0] ]] and one row is
    appended for every [k] in [range(1, N+1)]. *)
Definition gridPoints : list (list R) :=
  fold_left (fun g k => g ++ [gridRow k]) (seq 1 (N self)) [[1]].

(** [moves(depth)].  The recursion is on [depth - 1] and stops only at
    [depth == 1]; the fuel stands for the interpreter's stack. *)
Fixpoint moves_rec (fuel : nat) (depth : Z) : res (list (list R)) :=
  match fuel with
  | O => Err RecursionLimit
  | S fuel' =>
      if (depth =? 1)%Z then Ok [[d self]; [u self]]
      else
        subTree <- moves_rec fuel' (depth - 1) ;;
        let D := map (cons (d self)) subTree in
        let U := map (cons (u self)) subTree in
        Ok (D ++ U)
  end.

Definition moves (fuel : nat) (depth : option Z) : res (list (list R)) :=
  let depth := match depth with None => Z.of_nat (N self) | Some n => n end in
  moves_rec fuel depth.

(** Column access and column assignment on a matrix held as its rows. *)
Definition column (k : nat) (M : list (list R)) : list R :=
  map (fun row => nth k row 0) M.

Fixpoint set_nth (k : nat) (v : R) (row : list R) : list R :=
  match row, k with
  | [], _ => []
  | _ :: t, O => v :: t
  | h :: t, S k' => h :: set_nth k' v t
  end.

Fixpoint set_column (k : nat) (vals : list R) (M : list (list R))
  : list (list R) :=
  match M, vals with
  | row :: M', v :: vals' => set_nth k v row :: set_column k vals' M'
  | _, _ => M
  end.

Fixpoint zip_with (f : R -> R -> R) (xs ys : list R) : list R :=
  match xs, ys with
  | x :: xs', y :: ys' => f x y :: zip_with f xs' ys'
  | _, _ => []
  end.

Definition ones (rows cols : nat) : list (list R) :=
  repeat (repeat 1 cols) rows.

Definition ncols (M : list (list R)) : nat :=
  match M with
  | [] => 0
  | row :: _ => length row
  end.

(** [paths()]: [p[:,k+1] = p[:,k] * (1+m[:,k])] for [k] in [range(N)]. *)
Definition paths_step (m p : list (list R)) (k : nat) : list (list R) :=
  set_column (k + 1)
    (zip_with (fun a b => a * (1 + b)) (column k p) (column k m)) p.

Definition paths (fuel : nat) : res (list (list R)) :=
  m <- moves fuel None ;;
  let p := ones (length m) (ncols m + 1) in
  Ok (fold_left (paths_step m) (seq 0 (N self)) p).

(** Reference descriptions used to state what the code computes. *)

(** Every sequence of [n] moves, the first coordinate varying slowest. *)
Fixpoint all_moves (n : nat) : list (list R) :=
  match n with
  | O => [[]]
  | S n' => map (cons (d self)) (all_moves n') ++
            map (cons (u self)) (all_moves n')
  end.

(** The product of the first [k] growth factors of a move sequence. *)
Fixpoint growth (k : nat) (row : list R) : R :=
  match k, row with
  | S k', x :: row' => (1 + x) * growth k' row'
  | _, _ => 1
  end.

(** The number of up moves of a sequence. *)
Definition ups (row : list R) : nat :=
  count_occ Req_dec_T row (u self).

(** The asset path along a move sequence, relative to the start value. *)
Definition path_of (row : list R) : list R :=
  map (fun k => growth k row) (seq 0 (N self + 1)).

(** The [paths] array after the loop has run for [k] columns. *)
Definition stage (k : nat) (row : list R) : list R :=
  map (fun j => if (j <=? k)%nat then growth j row else 1) (seq 0 (N self + 1)).

End Lattice.

(** The model of the notebook, [CoxRossRubinsteinModel(100, 0.00, -0.05,
    0.10, 1.0, 10)], and the same market with a single step. *)
Definition notebook_model : CoxRossRubinsteinModel :=
  mkModel 100 0 (-5 / 100) (10 / 100) 1 10.

Definition one_step_model : CoxRossRubinsteinModel :=
  mkModel 100 0 (-5 / 100) (10 / 100) 1 1.

End CRR.

(** ** The standard normal distribution

    [scipy.stats.norm.pdf] and [scipy.stats.norm.cdf], as functions on the
    reals: the density and its integral, normalised by [cdf 0 = 1/2]. *)

Module Gauss.

Definition pdf (x : R) : R := exp (- (x * x) / 2) / sqrt (2 * PI).

Definition pdf_integrable (a b : R) : Riemann_integrable pdf a b.
Proof.
  assert (C : continuity pdf) by (unfold pdf; reg).
  destruct (Rle_dec a b) as [Hab|Hab].
  - apply continuity_implies_RiemannInt; [exact Hab|]. intros x _. apply C.
  - apply RiemannInt_P1. apply continuity_implies_RiemannInt; [lra|].
    intros x _. apply C.
Qed.

Definition cdf (x : R) : R := 1 / 2 + RiemannInt (pdf_integrable 0 x).

End Gauss.

(** ** Black-Scholes analytics *)

Module BS.
Import Gauss.

(** Arithmetic that can leave the reals.  [Err NonFinite] says that the
    float of NumPy is [inf] or [nan] at this point, not that the code
    stops: [BlackOverK(1.2, 0, 1)] divides by zero, warns and goes on to
    a finite result that the model over [R] does not compute. *)
Definition fdiv (x y : R) : res R :=
  if Req_dec_T y 0 then Err NonFinite else Ok (x / y).

Definition flog (x : R) : res R :=
  if Rlt_dec 0 x then Ok (ln x) else Err NonFinite.

Definition fsqrt (x : R) : res R :=
  if Rle_dec 0 x then Ok (sqrt x) else Err NonFinite.

Definition BlackOverK (moneyness nu callOrPut : R) : res R :=
  l <- flog moneyness ;;
  q <- fdiv l nu ;;
  let d1 := q + nu / 2 in
  let d2 := d1 - nu in
  Ok (callOrPut * (moneyness * cdf (callOrPut * d1) - cdf (callOrPut * d2))).

Definition Black (forward strike nu callOrPut : R) : res R :=
  if Rlt_dec nu 1e-12 then                             (* assume zero *)
    Ok (Rmax (callOrPut * (forward - strike)) 0)       (* intrinsic value *)
  else
    m <- fdiv forward strike ;;
    b <- BlackOverK m nu callOrPut ;;
    Ok (strike * b).

Definition BlackScholesPrice (underlying strike rate sigma T callOrPut : R)
  : res R :=
  let df := exp (- rate * T) in
  s <- fsqrt T ;;
  let nu := sigma * s in
  f <- fdiv underlying df ;;
  b <- Black f strike nu callOrPut ;;
  Ok (df * b).

Definition BlackScholesTheta (underlying strike rate sigma T callOrPut : R)
  : res R :=
  moneyness <- fdiv (exp (rate * T) * underlying) strike ;;
  s <- fsqrt T ;;
  let nu := sigma * s in
  l <- flog moneyness ;;
  q <- fdiv l nu ;;
  let d1 := q + nu / 2 in
  let d2 := d1 - nu in
  decay <- fdiv (underlying * pdf d1 * sigma / 2) s ;;
  Ok (decay +
      callOrPut * rate * strike * exp (- rate * T) * cdf (callOrPut * d2)).

(** *** Implied volatility

    [scipy.optimize.brentq] is not part of the repository.  It enters as
    a parameter of type [root_finder], and the statements about
    [BlackImpliedVol] assume the contract [brentq_contract] that SciPy
    documents for it: a [ValueError] when [f(a)] and [f(b)] have the same
    strict sign, otherwise a point of [[a, b]] with a sign change of [f]
    within [xtol + rtol * |x|], with the default [rtol = 4 * eps].  That
    the iteration ends within [maxiter] steps is part of the contract. *)

Definition root_finder : Type := (R -> res R) -> R -> R -> R -> res R.

Definition rtol : R := 4 / 2 ^ 52.

Record brentq_contract (brentq : root_finder) : Prop := {
  brentq_in_bracket :
    forall f a b xtol x,
      a <= b -> brentq f a b xtol = Ok x -> a <= x <= b;
  brentq_sign_error :
    forall f a b xtol fa fb,
      f a = Ok fa -> f b = Ok fb -> 0 < fa * fb ->
      brentq f a b xtol = Err NoRootInBracket;
  brentq_converges :
    forall f a b xtol fa fb,
      a < b -> 0 < xtol ->
      (forall x, a <= x <= b -> exists y, f x = Ok y) ->
      f a = Ok fa -> f b = Ok fb -> fa * fb <= 0 ->
      exists x, brentq f a b xtol = Ok x;
  brentq_accuracy :
    forall f a b xtol x,
      a < b -> 0 < xtol -> brentq f a b xtol = Ok x ->
      exists y fx fy,
        a <= y <= b /\ f x = Ok fx /\ f y = Ok fy /\ fx * fy <= 0 /\
        Rabs (x - y) <= xtol + rtol * Rabs x
}.

Definition objective (price strike forward callOrPut nu : R) : res R :=
  b <- Black forward strike nu callOrPut ;;
  Ok (b - price).

Definition BlackImpliedVol (brentq : root_finder)
  (price strike forward T callOrPut : R) : res R :=
  s <- fsqrt T ;;
  x <- brentq (objective price strike forward callOrPut)
         (0.01 * s) (1.00 * s) 1e-8 ;;
  fdiv x s.

(** A root finder that meets the contract: plain bisection, run until the
    bracket is shorter than [xtol]. *)
Fixpoint bisect (f : R -> res R) (a b fa : R) (n : nat) : res R :=
  match n with
  | O => Ok a
  | S n' =>
      let m := (a + b) / 2 in
      fm <- f m ;;
      if Rle_dec (fa * fm) 0 then bisect f a m fa n'
      else bisect f m b fm n'
  end.

Definition bisection : root_finder := fun f a b xtol =>
  fa <- f a ;;
  fb <- f b ;;
  if Rlt_dec 0 (fa * fb) then Err NoRootInBracket
  else bisect f a b fa (Z.to_nat (up ((b - a) / xtol))).

(** The closed formulas that the code evaluates on its regular branch. *)
Definition d1_of (moneyness nu : R) : R := ln moneyness / nu + nu / 2.

Definition BlackOverK_formula (moneyness nu callOrPut : R) : R :=
  callOrPut * (moneyness * cdf (callOrPut * d1_of moneyness nu)
               - cdf (callOrPut * (d1_of moneyness nu - nu))).

End BS.

(** ** The remaining sensitivities and the pricing equation *)

Module Greeks.
Import Gauss BS.

Definition BlackVega (strike forward sigma T : R) : res R :=
  s <- fsqrt T ;;
  let stdDev := sigma * s in
  m <- fdiv forward strike ;;
  l <- flog m ;;
  q <- fdiv l stdDev ;;
  let d1 := q + stdDev / 2 in
  Ok (forward * pdf d1 * s).

Definition BlackScholesDelta (underlying strike rate sigma T callOrPut : R)
  : res R :=
  moneyness <- fdiv (exp (rate * T) * underlying) strike ;;
  s <- fsqrt T ;;
  let nu := sigma * s in
  l <- flog moneyness ;;
  q <- fdiv l nu ;;
  let d1 := q + nu / 2 in
  Ok (callOrPut * cdf (callOrPut * d1)).

Definition BlackScholesGamma (underlying strike rate sigma T callOrPut : R)
  : res R :=
  moneyness <- fdiv (exp (rate * T) * underlying) strike ;;
  s <- fsqrt T ;;
  let nu := sigma * s in
  l <- flog moneyness ;;
  q <- fdiv l nu ;;
  let d1 := q + nu / 2 in
  g <- fdiv (pdf d1) underlying ;;
  fdiv g nu.

Definition BlackScholesRho (underlying strike rate sigma T callOrPut : R)
  : res R :=
  moneyness <- fdiv (exp (rate * T) * underlying) strike ;;
  s <- fsqrt T ;;
  let nu := sigma * s in
  l <- flog moneyness ;;
  q <- fdiv l nu ;;
  let d1 := q + nu / 2 in
  let d2 := d1 - nu in
  Ok (callOrPut * strike * T * exp (- rate * T) * cdf (callOrPut * d2)).

Definition BlackScholesVega (underlying strike rate sigma T callOrPut : R)
  : res R :=
  moneyness <- fdiv (exp (rate * T) * underlying) strike ;;
  s <- fsqrt T ;;
  let nu := sigma * s in
  l <- flog moneyness ;;
  q <- fdiv l nu ;;
  let d1 := q + nu / 2 in
  Ok (underlying * pdf d1 * s).

(** [L_v = lambda s, T : -Theta(s,T) + r*s*Delta(s,T)
    + 0.5*sigma**2*s**2*Gamma(s,T) - r*v(s,T)], with the notebook's
    globals [K], [r], [sigma] and [phi] as parameters. *)
Definition L_v (K r sigma phi s T : R) : res R :=
  theta <- BlackScholesTheta s K r sigma T phi ;;
  delta <- BlackScholesDelta s K r sigma T phi ;;
  gamma <- BlackScholesGamma s K r sigma T phi ;;
  v <- BlackScholesPrice s K r sigma T phi ;;
  Ok (- theta + r * s * delta + 0.5 * sigma ^ 2 * s ^ 2 * gamma - r * v).


End Greeks.

(** ** Evenly spaced grids and sums of arrays *)

Module Numpy.

(** [np.linspace(start, stop, num)]: [start + k * step] for [k < num],
    with [step = (stop - start) / (num - 1)]. *)
Definition linspace (start stop : R) (num : nat) : list R :=
  match num with
  | O => []
  | S O => [start]
  | S div =>
      map (fun k => start + INR k * ((stop - start) / INR div)) (seq 0 num)
  end.

(** [np.sum] of a one-dimensional array. *)
Definition sum (xs : list R) : R := fold_right Rplus 0 xs.

End Numpy.

(** ** The diffusion parameters of the lattice *)

Module CRRParams.
Import CRR BS Numpy.

Section Params.

Variable self : CoxRossRubinsteinModel.

(** [self.times = np.linspace(0.0, self.T, self.N+1)] *)
Definition times : list R := linspace 0 (T self) (N self + 1).

Definition blackScholesParameters : res (R * R) :=
  lr <- flog (1 + r self) ;;
  continuousRate <- fdiv (lr * INR (N self)) (T self) ;;
  (* there is a priori no guarantee that our tree is symmetric *)
  ld <- flog (1 + d self) ;;
  steps <- fdiv (INR (N self)) (T self) ;;
  root <- fsqrt steps ;;
  let sigma_d := - ld * root in
  lu <- flog (1 + u self) ;;
  let sigma_u := lu * root in
  averageSigma <- fsqrt (sigma_d * sigma_u) ;;
  Ok (continuousRate, averageSigma).

(** The number of move sequences of length [n] with [j] up moves. *)
Definition sequences_with_ups (n j : nat) : nat :=
  length (filter (fun row => (ups self row =? j)%nat) (all_moves self n)).

End Params.

(** Further lattices: without steps, with the rate of the notebook's
    second example, with symmetric moves and with two up moves. *)
Definition no_step_model : CoxRossRubinsteinModel :=
  mkModel 100 0 (-5 / 100) (10 / 100) 1 0.

Definition notebook_model_with_rate : CoxRossRubinsteinModel :=
  mkModel 100 0.01 (-5 / 100) (10 / 100) 1 10.

Definition symmetric_model : CoxRossRubinsteinModel :=
  mkModel 100 0 (-1 / 5) (1 / 4) 1 10.


End CRRParams.

(** ** Riemann-Stieltjes sums on dyadic partitions *)

Module Stochastic.
Import CRR Numpy.

(** The code calls [X] and [Y] once, on the whole array [t], and slices
    the results.  The model takes callables that act element by element
    and return an array (an expression of ufuncs, an [interp1d] object),
    for which that call is [map]; a callable that returns a scalar makes
    [Y_[1:]] raise [TypeError] and is outside the model. *)

(** [X_[1:] - X_[:-1]] *)
Definition increments (xs : list R) : list R :=
  zip_with Rminus (tl xs) (removelast xs).

Definition integral (Y X : R -> R) (a b : R) (n : nat) (rho : R) : R :=
  let t := linspace a b (2 ^ n + 1) in
  let X_ := map X t in
  let Y_ := map Y t in
  let sums :=
    zip_with Rmult
      (zip_with Rplus (map (Rmult rho) (tl Y_))
                      (map (Rmult (1 - rho)) (removelast Y_)))
      (increments X_) in
  sum sums.

Definition variation (X : R -> R) (a b : R) (n p : nat) : R :=
  let t := linspace a b (2 ^ n + 1) in
  let X_ := map X t in
  sum (map (fun dx => Rabs dx ^ p) (increments X_)).

End Stochastic.

(** ** The pricing functions in binary64

    The functions of the Black-Scholes notebook once more, on IEEE
    binary64 numbers as NumPy computes them.  The primitive floats of the
    kernel provide [+], [-], [*], [/], [sqrt] and the comparisons with
    their correct rounding, and a decimal literal denotes the nearest
    float, as in Python.  [np.exp], [np.log] and [norm.cdf] are library
    functions: they enter as parameters, and a statement names the values
    of them it relies on.  Results that are not finite are ordinary
    floats here ([inf], [nan]), as in NumPy, so nothing is an error
    except the [ValueError] of the root finder. *)

Module F64.
Import PrimFloat FloatOps SpecFloat.
#[local] Set Warnings "-inexact-float".
Local Open Scope float_scope.

(** [np.maximum]: the larger argument, [nan] if either is. *)
Definition maximum (x y : float) : float :=
  if is_nan x then x else if is_nan y then y else if x <? y then y else x.

Definition root_finder : Type :=
  (float -> float) -> float -> float -> float -> res float.

Section Library.
Variables np_exp np_log norm_cdf : float -> float.

Definition BlackOverK (moneyness nu callOrPut : float) : float :=
  let d1 := np_log moneyness / nu + nu / 2.0 in
  let d2 := d1 - nu in
  callOrPut * (moneyness * norm_cdf (callOrPut * d1) - norm_cdf (callOrPut * d2)).

Definition Black (forward strike nu callOrPut : float) : float :=
  if nu <? 1.0e-12 then                                  (* assume zero *)
    maximum (callOrPut * (forward - strike)) 0.0         (* intrinsic value *)
  else
    strike * BlackOverK (forward / strike) nu callOrPut.

Definition BlackScholesPrice
  (underlying strike rate sigma T callOrPut : float) : float :=
  let df := np_exp (- rate * T) in
  let nu := sigma * sqrt T in
  df * Black (underlying / df) strike nu callOrPut.

Definition objective (price strike forward callOrPut nu : float) : float :=
  Black forward strike nu callOrPut - price.

Definition BlackImpliedVol (brentq : root_finder)
  (price strike forward T callOrPut : float) : res float :=
  nu <- brentq (objective price strike forward callOrPut)
          (0.01 * sqrt T) (1.00 * sqrt T) 1.0e-8 ;;
  Ok (nu / sqrt T).

End Library.

(** The first step of SciPy's [brentq]: both ends of the bracket are
    evaluated, and an end where the function is zero is returned as it
    is. *)
Definition returns_lower_end_if_root (brentq : root_finder) : Prop :=
  forall f a b xtol, (f a =? 0) = true -> brentq f a b xtol = Ok a.

(** A root finder with that first step: the two checks of the ends, the
    sign test, then bisection. *)
Fixpoint bisect (f : float -> float) (a b : float) (n : nat) : float :=
  match n with
  | O => a
  | S n' =>
      let m := (a + b) / 2 in
      if f a * f m <=? 0 then bisect f a m n' else bisect f m b n'
  end.

Definition bisection : root_finder := fun f a b xtol =>
  let fa := f a in
  let fb := f b in
  if fa =? 0 then Ok a
  else if fb =? 0 then Ok b
  else if Bool.eqb (get_sign fa) (get_sign fb) then Err NoRootInBracket
  else Ok (bisect f a b 100).

(** The rational number that a finite float stands for. *)
Definition to_Q (x : float) : QArith_base.Q :=
  match Prim2SF x with
  | S754_finite s m e =>
      QArith_base.Qmult
        (QArith_base.inject_Z (if s then Z.neg m else Z.pos m))
        (QArith_base.Qpower (QArith_base.inject_Z 2) e)
  | _ => QArith_base.inject_Z 0
  end.

(** [x] is [y] or one of the two floats next to it: a library function
    that is accurate to one unit in the last place returns such an [x]
    where [y] is the correctly rounded value. *)
Definition within_one_ulp (y x : float) : Prop :=
  x = next_down y \/ x = y \/ x = next_up y.

End F64.

(** * Properties of the lattice *)

Module CRRFacts.
Import CRR.

(** The code on a one-step lattice with the moves of the notebook. *)

Example gridPoints_one_step :
  gridPoints one_step_model =
  [[1];
   [(1 + -5 / 100) ^ 1 * (1 + 10 / 100) ^ 0;
    (1 + -5 / 100) ^ 0 * (1 + 10 / 100) ^ 1]].
Proof. reflexivity. Qed.

Example moves_depth_two :
  moves one_step_model 2 (Some 2%Z) =
  Ok [[-5 / 100; -5 / 100]; [-5 / 100; 10 / 100];
      [10 / 100; -5 / 100]; [10 / 100; 10 / 100]].
Proof. reflexivity. Qed.

Example moves_depth_zero : moves one_step_model 50 (Some 0%Z) = Err RecursionLimit.
Proof. reflexivity. Qed.

Example paths_one_step :
  paths one_step_model 1 =
  Ok [[1; 1 * (1 + -5 / 100)]; [1; 1 * (1 + 10 / 100)]].
Proof. reflexivity. Qed.

Section LatticeFacts.

Variable self : CoxRossRubinsteinModel.

Lemma fold_append_rows (f : nat -> list R) (l : list nat) (acc : list (list R)) :
  fold_left (fun g k => g ++ [f k]) l acc = acc ++ map f l.
Proof.
  revert acc; induction l as [|k l IH]; intros acc; simpl.
  - now rewrite app_nil_r.
  - rewrite IH, <- app_assoc. reflexivity.
Qed.

Lemma gridPoints_unfold :
  gridPoints self = [1] :: map (gridRow self) (seq 1 (N self)).
Proof. unfold gridPoints. now rewrite fold_append_rows. Qed.

Lemma gridPoints_length : length (gridPoints self) = (N self + 1)%nat.
Proof. rewrite gridPoints_unfold. simpl. rewrite length_map, length_seq. lia. Qed.

Lemma gridRow_length k : length (gridRow self k) = (k + 1)%nat.
Proof. unfold gridRow. now rewrite length_map, length_seq. Qed.

Lemma nth_map_seq {A : Type} (f : nat -> A) (s n i : nat) (dflt : A) :
  (i < n)%nat -> nth i (map f (seq s n)) dflt = f (s + i)%nat.
Proof.
  intros Hi.
  rewrite (nth_indep _ dflt (f 0%nat)) by (rewrite length_map, length_seq; lia).
  rewrite (map_nth f (seq s n) 0%nat i), seq_nth by lia. reflexivity.
Qed.

Lemma gridRow_nth k i :
  (i <= k)%nat ->
  nth i (gridRow self k) 0 = (1 + d self) ^ (k - i) * (1 + u self) ^ i.
Proof.
  intros Hi. unfold gridRow. rewrite nth_map_seq by lia. reflexivity.
Qed.

Lemma gridPoints_row k :
  (1 <= k <= N self)%nat -> nth k (gridPoints self) [] = gridRow self k.
Proof.
  intros Hk. rewrite gridPoints_unfold.
  destruct k as [|k]; [lia|]. simpl.
  rewrite nth_map_seq by lia. reflexivity.
Qed.

Lemma gridPoints_entry k i :
  (k <= N self)%nat -> (i <= k)%nat ->
  nth i (nth k (gridPoints self) []) 0 = (1 + d self) ^ (k - i) * (1 + u self) ^ i.
Proof.
  intros Hk Hi. destruct k as [|k].
  - assert (i = 0%nat) by lia. subst i.
    rewrite gridPoints_unfold. simpl. ring.
  - rewrite gridPoints_row by lia. now apply gridRow_nth.
Qed.

Lemma gridPoints_row_length k :
  (k <= N self)%nat -> length (nth k (gridPoints self) []) = (k + 1)%nat.
Proof.
  intros Hk. destruct k as [|k].
  - rewrite gridPoints_unfold. reflexivity.
  - rewrite gridPoints_row by lia. apply gridRow_length.
Qed.

(** *** [moves] *)

Lemma moves_rec_ok (n fuel : nat) :
  (1 <= n)%nat -> (n <= fuel)%nat ->
  moves_rec self fuel (Z.of_nat n) = Ok (all_moves self n).
Proof.
  revert fuel. induction n as [|n IH]; intros fuel Hn Hf; [lia|].
  destruct fuel as [|fuel]; [lia|].
  destruct n as [|n].
  - reflexivity.
  - cbn [moves_rec].
    replace (Z.of_nat (S (S n)) =? 1)%Z with false by (symmetry; apply Z.eqb_neq; lia).
    replace (Z.of_nat (S (S n)) - 1)%Z with (Z.of_nat (S n)) by lia.
    rewrite IH by lia. reflexivity.
Qed.

Lemma moves_rec_diverges (fuel : nat) (depth : Z) :
  (depth <= 0)%Z -> moves_rec self fuel depth = Err RecursionLimit.
Proof.
  revert depth. induction fuel as [|fuel IH]; intros depth Hd; [reflexivity|].
  cbn [moves_rec].
  replace (depth =? 1)%Z with false by (symmetry; apply Z.eqb_neq; lia).
  rewrite IH by lia. reflexivity.
Qed.

Lemma all_moves_length n : length (all_moves self n) = (2 ^ n)%nat.
Proof.
  induction n as [|n IH]; [reflexivity|].
  cbn [all_moves]. rewrite length_app, !length_map, IH. cbn [Nat.pow]. lia.
Qed.

Lemma all_moves_in n row :
  In row (all_moves self n) <->
  length row = n /\ Forall (fun x => x = d self \/ x = u self) row.
Proof.
  revert row. induction n as [|n IH]; intros row; cbn [all_moves].
  - split.
    + intros [<-|[]]. split; [reflexivity|constructor].
    + intros [Hl _]. destruct row; [now left|discriminate].
  - rewrite in_app_iff, !in_map_iff. split.
    + intros [[t [<- Ht]]|[t [<- Ht]]]; apply IH in Ht as [Hl Hf];
        (split; [simpl; now rewrite Hl|constructor; auto]).
    + intros [Hl Hf]. destruct row as [|x t]; [discriminate|].
      inversion Hf as [|? ? Hx Ht]; subst.
      assert (In t (all_moves self n)) by (apply IH; split; [simpl in Hl; lia|assumption]).
      destruct Hx as [->| ->]; [left|right]; exists t; auto.
Qed.

Lemma all_moves_first n : nth 0 (all_moves self n) [] = repeat (d self) n.
Proof.
  induction n as [|n IH]; [reflexivity|].
  cbn [all_moves repeat].
  assert (Hlen := all_moves_length n).
  destruct (all_moves self n) as [|a A] eqn:E.
  - simpl in Hlen. pose proof (Nat.pow_nonzero 2 n). lia.
  - simpl in *. now rewrite IH.
Qed.

Lemma all_moves_leading n i :
  (i < 2 ^ S n)%nat ->
  hd 0 (nth i (all_moves self (S n)) []) =
  if (i <? 2 ^ n)%nat then d self else u self.
Proof.
  intros Hi. cbn [all_moves].
  pose proof (all_moves_length n) as Hlen.
  destruct (Nat.ltb_spec i (2 ^ n)) as [Hlt|Hge].
  - rewrite app_nth1 by (rewrite length_map; lia).
    rewrite (nth_indep _ [] (d self :: [])) by (rewrite length_map; lia).
    rewrite (map_nth (cons (d self))). reflexivity.
  - rewrite app_nth2 by (rewrite length_map; lia).
    rewrite length_map, Hlen.
    cbn [Nat.pow] in Hi.
    rewrite (nth_indep _ [] (u self :: [])) by (rewrite length_map; lia).
    rewrite (map_nth (cons (u self))). reflexivity.
Qed.

(** *** [paths] *)

Lemma growth_succ k row :
  growth (S k) row = growth k row * (1 + nth k row 0).
Proof.
  revert row. induction k as [|k IH]; intros [|x row]; try (cbn [growth nth]; ring).
  change (growth (S (S k)) (x :: row)) with ((1 + x) * growth (S k) row).
  rewrite IH. cbn [growth nth]. ring.
Qed.

Lemma set_nth_length k v row : length (set_nth k v row) = length row.
Proof.
  revert k. induction row as [|h t IH]; intros [|k]; simpl; auto.
Qed.

Lemma nth_set_nth k v row j :
  nth j (set_nth k v row) 0 =
  if ((j =? k) && (k <? length row))%nat then v else nth j row 0.
Proof.
  revert k j. induction row as [|h t IH]; intros k j.
  - destruct k, j; simpl; try reflexivity;
      rewrite ?andb_false_r; reflexivity.
  - destruct k as [|k], j as [|j]; cbn [set_nth nth length]; try reflexivity.
    rewrite IH. reflexivity.
Qed.

Lemma stage_length k row : length (stage self k row) = (N self + 1)%nat.
Proof. unfold stage. now rewrite length_map, length_seq. Qed.

Lemma stage_nth k row j :
  (j <= N self)%nat ->
  nth j (stage self k row) 0 = if (j <=? k)%nat then growth j row else 1.
Proof. intros Hj. unfold stage. rewrite nth_map_seq by lia. reflexivity. Qed.

Lemma stage_step k row :
  (k < N self)%nat ->
  set_nth (k + 1) (nth k (stage self k row) 0 * (1 + nth k row 0)) (stage self k row)
  = stage self (k + 1) row.
Proof.
  intros Hk.
  apply (nth_ext _ _ 0 0).
  - now rewrite set_nth_length, !stage_length.
  - intros j Hj. rewrite set_nth_length, stage_length in Hj.
    rewrite nth_set_nth, stage_length, !stage_nth by lia.
    rewrite Nat.leb_refl.
    destruct (Nat.eqb_spec j (k + 1)) as [->|Hne]; cbn [andb].
    + replace (k + 1 <? N self + 1)%nat with true by (symmetry; apply Nat.ltb_lt; lia).
      rewrite Nat.leb_refl. replace (k + 1)%nat with (S k) by lia.
      now rewrite growth_succ.
    + destruct (Nat.leb_spec j k), (Nat.leb_spec j (k + 1)); try lia; reflexivity.
Qed.

Lemma paths_step_stage m k :
  (k < N self)%nat ->
  paths_step m (map (stage self k) m) k = map (stage self (k + 1)) m.
Proof.
  intros Hk. unfold paths_step, column.
  induction m as [|row m IH]; [reflexivity|].
  cbn [map zip_with set_column]. rewrite IH, stage_step by assumption.
  reflexivity.
Qed.

Lemma paths_loop m a c :
  (a + c <= N self)%nat ->
  fold_left (paths_step m) (seq a c) (map (stage self a) m)
  = map (stage self (a + c)) m.
Proof.
  revert a. induction c as [|c IH]; intros a Hac; cbn [seq fold_left].
  - now rewrite Nat.add_0_r.
  - rewrite paths_step_stage by lia.
    replace (a + 1)%nat with (S a) by lia.
    rewrite IH by lia.
    replace (S a + c)%nat with (a + S c)%nat by lia. reflexivity.
Qed.

Lemma ones_stage m :
  ones (length m) (N self + 1) = map (stage self 0) m.
Proof.
  unfold ones. induction m as [|row m IH]; [reflexivity|].
  cbn [length repeat map]. rewrite IH. f_equal.
  apply (nth_ext _ _ 0 0).
  - now rewrite repeat_length, stage_length.
  - intros j Hj. rewrite repeat_length in Hj.
    rewrite nth_repeat_lt, stage_nth by lia.
    destruct j; reflexivity.
Qed.

Lemma stage_final row : stage self (N self) row = path_of self row.
Proof.
  unfold stage, path_of. apply map_ext_in. intros j Hj.
  apply in_seq in Hj.
  replace (j <=? N self)%nat with true by (symmetry; apply Nat.leb_le; lia).
  reflexivity.
Qed.

Lemma ncols_all_moves n : ncols (all_moves self n) = n.
Proof.
  pose proof (all_moves_first n) as H.
  destruct (all_moves self n) as [|row A] eqn:E.
  - pose proof (all_moves_length n) as Hl. rewrite E in Hl. simpl in Hl.
    pose proof (Nat.pow_nonzero 2 n). lia.
  - simpl in *. subst row. apply repeat_length.
Qed.

Lemma paths_ok fuel :
  (1 <= N self)%nat -> (N self <= fuel)%nat ->
  paths self fuel = Ok (map (path_of self) (all_moves self (N self))).
Proof.
  intros HN Hf. unfold paths, moves.
  rewrite moves_rec_ok by assumption. cbn [bind].
  rewrite ncols_all_moves, ones_stage.
  rewrite (paths_loop _ 0 (N self)) by lia. cbn [Nat.add].
  f_equal. apply map_ext. apply stage_final.
Qed.

Lemma last_is_nth (l : list R) :
  last l 0 = nth (length l - 1) l 0.
Proof.
  induction l as [|x [|y l] IH]; try reflexivity.
  change (last (x :: y :: l) 0) with (last (y :: l) 0). rewrite IH.
  cbn [length]. replace (S (S (length l)) - 1)%nat with (S (length l)) by lia.
  replace (S (length l) - 1)%nat with (length l) by lia. reflexivity.
Qed.

Lemma path_of_length row : length (path_of self row) = (N self + 1)%nat.
Proof. unfold path_of. now rewrite length_map, length_seq. Qed.

Lemma path_of_nth row k :
  (k <= N self)%nat -> nth k (path_of self row) 0 = growth k row.
Proof. intros Hk. unfold path_of. rewrite nth_map_seq by lia. reflexivity. Qed.

Lemma growth_terminal row :
  Forall (fun x => x = d self \/ x = u self) row ->
  (ups self row <= length row)%nat /\
  growth (length row) row =
  (1 + d self) ^ (length row - ups self row) * (1 + u self) ^ ups self row.
Proof.
  unfold ups. induction 1 as [|x row Hx Hrow [IHle IHeq]].
  - split; [simpl; lia|simpl; ring].
  - cbn [length growth count_occ]. rewrite IHeq.
    destruct (Req_dec_T x (u self)) as [->|Hne].
    + split; [lia|]. replace (S (length row) - S _)%nat with
        (length row - count_occ Req_dec_T row (u self))%nat by lia.
      cbn [pow]. ring.
    + destruct Hx as [->|Hx]; [|contradiction].
      split; [lia|].
      replace (S (length row) - count_occ Req_dec_T row (u self))%nat with
        (S (length row - count_occ Req_dec_T row (u self))) by lia.
      cbn [pow]. ring.
Qed.

Lemma paths_row fuel :
  (1 <= N self)%nat -> (N self <= fuel)%nat ->
  exists m P,
    moves self fuel None = Ok m /\ paths self fuel = Ok P /\
    length m = (2 ^ N self)%nat /\ length P = (2 ^ N self)%nat /\
    (forall i, (i < 2 ^ N self)%nat ->
       In (nth i m []) (all_moves self (N self)) /\
       nth i P [] = path_of self (nth i m [])).
Proof.
  intros HN Hf.
  exists (all_moves self (N self)), (map (path_of self) (all_moves self (N self))).
  split; [unfold moves; now apply moves_rec_ok|].
  split; [now apply paths_ok|].
  rewrite length_map, all_moves_length. repeat split.
  - apply nth_In. now rewrite all_moves_length.
  - rewrite (nth_indep _ [] (path_of self [])) by (now rewrite length_map, all_moves_length).
    apply (map_nth (path_of self)).
Qed.

End LatticeFacts.

(** C1, as amended: the lattice is relative to the start value.  For every
    step [k <= N] and index [i <= k] the constructor stores
    [gridPoints[k][i] = (1+d)^(k-i) * (1+u)^i] (the factor [S0] is not
    applied), and [gridPoints[k]] has exactly [k+1] entries. *)
Theorem gridPoints_closed_form (self : CoxRossRubinsteinModel) (k i : nat) :
  (k <= N self)%nat -> (i <= k)%nat ->
  nth i (nth k (gridPoints self) []) 0 = (1 + d self) ^ (k - i) * (1 + u self) ^ i /\
  length (nth k (gridPoints self) []) = (k + 1)%nat.
Proof.
  intros Hk Hi. split.
  - now apply gridPoints_entry.
  - now apply gridPoints_row_length.
Qed.

Lemma gridPoints_closed_form_witness :
  nth 1 (nth 2 (gridPoints notebook_model) []) 0 =
    (1 + d notebook_model) ^ (2 - 1) * (1 + u notebook_model) ^ 1 /\
  length (nth 2 (gridPoints notebook_model) []) = (2 + 1)%nat.
Proof.
  apply (gridPoints_closed_form notebook_model 2 1); simpl; lia.
Defined.

(** C1 as stated fails: with [S0 = 100] the root of the lattice is [1],
    not [S0 * (1+d)^0 * (1+u)^0 = 100]. *)
Lemma gridPoints_not_scaled_by_S0 :
  0 < S0 notebook_model /\
  -1 < d notebook_model < u notebook_model /\
  (1 <= N notebook_model)%nat /\
  nth 0 (nth 0 (gridPoints notebook_model) []) 0 <>
  S0 notebook_model * (1 + d notebook_model) ^ (0 - 0) * (1 + u notebook_model) ^ 0.
Proof.
  split; [simpl; lra|]. split; [simpl; lra|]. split; [simpl; lia|].
  rewrite gridPoints_unfold. simpl. lra.
Qed.

(** C3, as amended: for [N >= 1], [paths()] returns a [2^N x (N+1)] array
    whose row for a move sequence is the cumulative product
    [prod (1 + move_j)] along that sequence, started at [1] (not at
    [S0]); in particular the first column is identically [1]. *)
Theorem paths_cumulative_product (self : CoxRossRubinsteinModel) (fuel : nat) :
  (1 <= N self)%nat -> (N self <= fuel)%nat ->
  exists m P,
    moves self fuel None = Ok m /\ paths self fuel = Ok P /\
    length m = (2 ^ N self)%nat /\ length P = (2 ^ N self)%nat /\
    (forall i, (i < 2 ^ N self)%nat ->
       length (nth i P []) = (N self + 1)%nat /\
       nth 0 (nth i P []) 0 = 1 /\
       (forall k, (k <= N self)%nat ->
          nth k (nth i P []) 0 = growth k (nth i m []))).
Proof.
  intros HN Hf.
  destruct (paths_row self fuel HN Hf) as (m & P & Hm & HP & Lm & LP & Hrow).
  exists m, P. repeat (split; [assumption|]).
  intros i Hi. destruct (Hrow i Hi) as [_ ->].
  split; [apply path_of_length|].
  split; [rewrite path_of_nth by lia; reflexivity|].
  intros k Hk. now apply path_of_nth.
Qed.

Lemma paths_cumulative_product_witness :
  exists m P,
    moves one_step_model 1 None = Ok m /\ paths one_step_model 1 = Ok P /\
    length m = (2 ^ N one_step_model)%nat /\
    length P = (2 ^ N one_step_model)%nat /\
    (forall i, (i < 2 ^ N one_step_model)%nat ->
       length (nth i P []) = (N one_step_model + 1)%nat /\
       nth 0 (nth i P []) 0 = 1 /\
       (forall k, (k <= N one_step_model)%nat ->
          nth k (nth i P []) 0 = growth k (nth i m []))).
Proof.
  apply (paths_cumulative_product one_step_model 1); simpl; lia.
Defined.

(** C3 as stated fails: with [S0 = 100] the first column of [paths()] is
    [1], not [S0]. *)
Lemma paths_first_column_not_S0 :
  (1 <= N one_step_model)%nat /\
  exists P, paths one_step_model 1 = Ok P /\
    nth 0 (nth 0 P []) 0 <> S0 one_step_model.
Proof.
  split; [simpl; lia|].
  destruct (paths_row one_step_model 1) as (m & P & _ & HP & _ & _ & Hrow);
    try (simpl; lia).
  exists P. split; [assumption|].
  destruct (Hrow 0%nat) as [_ ->]; [simpl; lia|].
  rewrite path_of_nth by lia. simpl. lra.
Qed.

(** C8: for every [depth >= 1] the recursion of [moves(depth)] terminates
    (any stack of at least [depth] frames is enough) and returns exactly
    the [2^depth] sequences of length [depth] over [{d, u}], the all-[d]
    sequence first, the first coordinate varying slowest: the first half
    of the rows leads with [d], the second half with [u], and each half
    is the result for [depth - 1] behind that leading move.  The default
    [depth = None] is [depth = N]. *)
Theorem moves_enumerates (self : CoxRossRubinsteinModel) (depth : Z) :
  (1 <= depth)%Z ->
  exists M,
    (forall fuel, (depth <= Z.of_nat fuel)%Z ->
       moves self fuel (Some depth) = Ok M /\
       (depth = Z.of_nat (N self) -> moves self fuel None = Ok M)) /\
    length M = (2 ^ Z.to_nat depth)%nat /\
    (forall row, In row M <->
       length row = Z.to_nat depth /\
       Forall (fun x => x = d self \/ x = u self) row) /\
    nth 0 M [] = repeat (d self) (Z.to_nat depth) /\
    (forall i, (i < 2 ^ Z.to_nat depth)%nat ->
       hd 0 (nth i M []) =
       if (i <? 2 ^ (Z.to_nat depth - 1))%nat then d self else u self) /\
    ((2 <= depth)%Z ->
     exists M',
       (forall fuel, (depth - 1 <= Z.of_nat fuel)%Z ->
          moves self fuel (Some (depth - 1)%Z) = Ok M') /\
       M = map (cons (d self)) M' ++ map (cons (u self)) M').
Proof.
  intros Hd. exists (all_moves self (Z.to_nat depth)).
  split; [|split; [|split; [|split; [|split]]]].
  - intros fuel Hf.
    assert (H : moves self fuel (Some depth) = Ok (all_moves self (Z.to_nat depth))).
    { unfold moves. rewrite <- (Z2Nat.id depth) at 1 by lia.
      apply moves_rec_ok; lia. }
    split; [exact H|]. intros E. unfold moves in *. now rewrite <- E.
  - apply all_moves_length.
  - apply all_moves_in.
  - apply all_moves_first.
  - intros i Hi. destruct (Z.to_nat depth) as [|n] eqn:E; [lia|].
    replace (S n - 1)%nat with n by lia. now apply all_moves_leading.
  - intros H2. exists (all_moves self (Z.to_nat (depth - 1))). split.
    + intros fuel Hf. unfold moves.
      rewrite <- (Z2Nat.id (depth - 1)) at 1 by lia.
      apply moves_rec_ok; lia.
    + replace (Z.to_nat depth) with (S (Z.to_nat (depth - 1))) by lia.
      reflexivity.
Qed.

Lemma moves_enumerates_witness :
  exists M,
    (forall fuel, (2 <= Z.of_nat fuel)%Z ->
       moves one_step_model fuel (Some 2%Z) = Ok M /\
       (2%Z = Z.of_nat (N one_step_model) -> moves one_step_model fuel None = Ok M)) /\
    length M = (2 ^ Z.to_nat 2)%nat /\
    (forall row, In row M <->
       length row = Z.to_nat 2 /\
       Forall (fun x => x = d one_step_model \/ x = u one_step_model) row) /\
    nth 0 M [] = repeat (d one_step_model) (Z.to_nat 2) /\
    (forall i, (i < 2 ^ Z.to_nat 2)%nat ->
       hd 0 (nth i M []) =
       if (i <? 2 ^ (Z.to_nat 2 - 1))%nat then d one_step_model else u one_step_model) /\
    ((2 <= 2)%Z ->
     exists M',
       (forall fuel, (2 - 1 <= Z.of_nat fuel)%Z ->
          moves one_step_model fuel (Some (2 - 1)%Z) = Ok M') /\
       M = map (cons (d one_step_model)) M' ++ map (cons (u one_step_model)) M').
Proof.
  apply (moves_enumerates one_step_model 2). lia.
Defined.

(** C9: for [N >= 1] every row of [paths()] ends on a node of the
    recombining lattice: the last entry of row [i] is
    [gridPoints[N][j]], where [j <= N] is the number of up moves of the
    [i]-th move sequence. *)
Theorem paths_end_on_lattice (self : CoxRossRubinsteinModel) (fuel : nat) :
  (1 <= N self)%nat -> (N self <= fuel)%nat ->
  exists m P,
    moves self fuel None = Ok m /\ paths self fuel = Ok P /\
    length P = (2 ^ N self)%nat /\
    (forall i, (i < 2 ^ N self)%nat ->
       (ups self (nth i m []) <= N self)%nat /\
       last (nth i P []) 0 = nth (N self) (nth i P []) 0 /\
       nth (N self) (nth i P []) 0 =
       nth (ups self (nth i m [])) (nth (N self) (gridPoints self) []) 0).
Proof.
  intros HN Hf.
  destruct (paths_row self fuel HN Hf) as (m & P & Hm & HP & Lm & LP & Hrow).
  exists m, P. repeat (split; [assumption|]).
  intros i Hi. destruct (Hrow i Hi) as [Hin ->].
  apply all_moves_in in Hin as [Hlen Hall].
  destruct (growth_terminal self _ Hall) as [Hle Heq]. rewrite Hlen in *.
  split; [assumption|]. split.
  - rewrite last_is_nth, path_of_length. f_equal. lia.
  - rewrite path_of_nth, gridPoints_entry by lia. exact Heq.
Qed.

Lemma paths_end_on_lattice_witness :
  exists m P,
    moves notebook_model 10 None = Ok m /\ paths notebook_model 10 = Ok P /\
    length P = (2 ^ N notebook_model)%nat /\
    (forall i, (i < 2 ^ N notebook_model)%nat ->
       (ups notebook_model (nth i m []) <= N notebook_model)%nat /\
       last (nth i P []) 0 = nth (N notebook_model) (nth i P []) 0 /\
       nth (N notebook_model) (nth i P []) 0 =
       nth (ups notebook_model (nth i m []))
           (nth (N notebook_model) (gridPoints notebook_model) []) 0).
Proof.
  apply (paths_end_on_lattice notebook_model 10); simpl; lia.
Defined.

End CRRFacts.

(** * Properties of the normal distribution *)

Module GaussFacts.
Import Gauss.

Lemma pdf_continuity : continuity pdf.
Proof. unfold pdf. reg. Qed.

Lemma sqrt_2PI_pos : 0 < sqrt (2 * PI).
Proof. apply sqrt_lt_R0. pose proof PI_RGT_0. lra. Qed.

Lemma pdf_pos x : 0 < pdf x.
Proof.
  unfold pdf. apply Rdiv_lt_0_compat; [apply exp_pos|apply sqrt_2PI_pos].
Qed.

Lemma pdf_even x : pdf (- x) = pdf x.
Proof. unfold pdf. f_equal. f_equal. lra. Qed.

Lemma pdf_side phi x : phi = 1 \/ phi = -1 -> pdf (phi * x) = pdf x.
Proof.
  intros [->| ->].
  - f_equal. ring.
  - rewrite <- (pdf_even x). f_equal. ring.
Qed.

(** The density is the derivative of [cdf] (fundamental theorem of
    calculus on an interval around [x] that contains [0]). *)
Lemma cdf_derivative x : derivable_pt_lim cdf x (pdf x).
Proof.
  set (a := - (Rabs x + 1)). set (b := Rabs x + 1).
  assert (Hx : a < x < b).
  { unfold a, b. destruct (Rcase_abs x); [rewrite Rabs_left|rewrite Rabs_right]; lra. }
  assert (Ha : a < 0) by (unfold a; pose proof (Rabs_pos x); lra).
  assert (Hab : a <= b) by lra.
  assert (C0 : forall y, a <= y <= b -> continuity_pt pdf y)
    by (intros y _; apply pdf_continuity).
  pose proof (@RiemannInt_P27 pdf a b x Hab C0 Hx) as HP.
  apply (derivable_pt_lim_locally_ext
           (fun y => (1 / 2 - RiemannInt (pdf_integrable a 0))
                     + primitive Hab (FTC_P1 Hab C0) y)
           cdf x a b).
  - exact Hx.
  - intros z Hz. unfold cdf, primitive.
    destruct (Rle_dec a z) as [Haz|]; [|lra].
    destruct (Rle_dec z b) as [Hzb|]; [|lra].
    rewrite <- (RiemannInt_P26 (pdf_integrable a 0) (pdf_integrable 0 z)
                 (FTC_P1 Hab C0 Haz Hzb)).
    ring.
  - replace (pdf x) with (0 + pdf x) by ring.
    apply (derivable_pt_lim_plus (fun _ => _) _ x 0 (pdf x)); [|exact HP].
    apply derivable_pt_lim_const.
Qed.

Lemma cdf_zero : cdf 0 = 1 / 2.
Proof. unfold cdf. rewrite RiemannInt_P9. ring. Qed.

Lemma cdf_symmetry x : cdf (- x) = 1 - cdf x.
Proof.
  set (H := fun y => cdf y + cdf (- y)).
  assert (D : forall c, derivable_pt_lim H c ((fun _ => 0) c)).
  { intros c. unfold H.
    replace 0 with (pdf c + pdf (- c) * (-1)) by (rewrite pdf_even; ring).
    apply (derivable_pt_lim_plus cdf (fun y => cdf (- y))); [apply cdf_derivative|].
    apply (derivable_pt_lim_comp (fun y => - y) cdf).
    - apply (derivable_pt_lim_opp id c 1). apply derivable_pt_lim_id.
    - apply cdf_derivative. }
  assert (E : H x = H 0).
  { destruct (Rtotal_order 0 x) as [Hlt|[<-|Hgt]]; [|reflexivity|].
    - destruct (MVT_cor2 H (fun _ => 0) 0 x Hlt) as (c & Hc & _); [intros; apply D|]. lra.
    - destruct (MVT_cor2 H (fun _ => 0) x 0 Hgt) as (c & Hc & _); [intros; apply D|]. lra. }
  unfold H in E. rewrite Ropp_0, cdf_zero in E. lra.
Qed.

Lemma cdf_increasing x y : x < y -> cdf x < cdf y.
Proof.
  intros Hxy.
  destruct (MVT_cor2 cdf pdf x y Hxy) as (c & Hc & _); [intros; apply cdf_derivative|].
  pose proof (pdf_pos c). nra.
Qed.

End GaussFacts.

(** * Properties of the Black-Scholes functions *)

Module BSFacts.
Import Gauss GaussFacts BS.

(** *** The checked operations on their domain *)

Lemma fdiv_ok x y : y <> 0 -> fdiv x y = Ok (x / y).
Proof. intros Hy. unfold fdiv. destruct (Req_dec_T y 0); [contradiction|reflexivity]. Qed.

Lemma flog_ok x : 0 < x -> flog x = Ok (ln x).
Proof. intros Hx. unfold flog. destruct (Rlt_dec 0 x); [reflexivity|contradiction]. Qed.

Lemma fsqrt_ok x : 0 <= x -> fsqrt x = Ok (sqrt x).
Proof. intros Hx. unfold fsqrt. destruct (Rle_dec 0 x); [reflexivity|contradiction]. Qed.

Lemma BlackOverK_regular m nu phi :
  0 < m -> nu <> 0 -> BlackOverK m nu phi = Ok (BlackOverK_formula m nu phi).
Proof.
  intros Hm Hnu. unfold BlackOverK. rewrite flog_ok by assumption. cbn [bind].
  rewrite fdiv_ok by assumption. reflexivity.
Qed.

Lemma Black_degenerate F K nu phi :
  nu < 1e-12 -> Black F K nu phi = Ok (Rmax (phi * (F - K)) 0).
Proof. intros H. unfold Black. destruct (Rlt_dec nu 1e-12); [reflexivity|contradiction]. Qed.

Lemma Black_regular F K nu phi :
  1e-12 <= nu -> 0 < F -> 0 < K ->
  Black F K nu phi = Ok (K * BlackOverK_formula (F / K) nu phi).
Proof.
  intros Hnu HF HK. unfold Black. destruct (Rlt_dec nu 1e-12); [lra|].
  rewrite fdiv_ok by lra. cbn [bind].
  rewrite BlackOverK_regular; [reflexivity| |lra].
  now apply Rdiv_lt_0_compat.
Qed.

(** *** Put-call parity of the two branches *)

Lemma formula_parity m nu :
  BlackOverK_formula m nu 1 - BlackOverK_formula m nu (-1) = m - 1.
Proof.
  unfold BlackOverK_formula.
  replace (-1 * d1_of m nu) with (- d1_of m nu) by ring.
  replace (-1 * (d1_of m nu - nu)) with (- (d1_of m nu - nu)) by ring.
  rewrite !cdf_symmetry, !Rmult_1_l. ring.
Qed.

Lemma intrinsic_parity x : Rmax (1 * x) 0 - Rmax (-1 * x) 0 = x.
Proof.
  unfold Rmax. destruct (Rle_dec (1 * x) 0), (Rle_dec (-1 * x) 0); lra.
Qed.

Lemma Black_parity F K nu :
  0 < F -> 0 < K ->
  exists c p, Black F K nu 1 = Ok c /\ Black F K nu (-1) = Ok p /\ c - p = F - K.
Proof.
  intros HF HK. destruct (Rlt_dec nu 1e-12) as [Hnu|Hnu].
  - rewrite !Black_degenerate by assumption.
    eexists _, _. split; [reflexivity|]. split; [reflexivity|].
    apply intrinsic_parity.
  - rewrite !Black_regular by lra.
    eexists _, _. split; [reflexivity|]. split; [reflexivity|].
    rewrite <- Rmult_minus_distr_l, formula_parity. field. lra.
Qed.

Lemma price_unfold S K r sigma T phi :
  0 <= T ->
  BlackScholesPrice S K r sigma T phi =
  (b <- Black (S / exp (- r * T)) K (sigma * sqrt T) phi ;;
   Ok (exp (- r * T) * b)).
Proof.
  intros HT. unfold BlackScholesPrice. rewrite fsqrt_ok by assumption. cbn [bind].
  rewrite fdiv_ok by (pose proof (exp_pos (- r * T)); lra). reflexivity.
Qed.

(** C2, as amended: put-call parity in exact real arithmetic.  For
    [S, K, T > 0] and [sigma >= 0] both prices are defined and
    [call - put = S - K * exp(-r*T)], exactly, whichever branch of
    [Black] is taken (the zero-variance branch for
    [sigma * sqrt T < 1e-12], the regular one otherwise).  No bound is
    stated for binary64: there the difference is a rounding error that
    grows with the size of [S] and [K]. *)
Theorem put_call_parity (S K r sigma T : R) :
  0 < S -> 0 < K -> 0 <= sigma -> 0 < T ->
  exists c p,
    BlackScholesPrice S K r sigma T 1 = Ok c /\
    BlackScholesPrice S K r sigma T (-1) = Ok p /\
    c - p = S - K * exp (- r * T).
Proof.
  intros HS HK Hsig HT.
  pose proof (exp_pos (- r * T)) as Hdf.
  assert (HF : 0 < S / exp (- r * T)) by now apply Rdiv_lt_0_compat.
  destruct (Black_parity (S / exp (- r * T)) K (sigma * sqrt T) HF HK)
    as (c & p & Hc & Hp & E).
  exists (exp (- r * T) * c), (exp (- r * T) * p).
  rewrite !price_unfold, Hc, Hp by lra. cbn [bind].
  split; [reflexivity|]. split; [reflexivity|].
  rewrite <- Rmult_minus_distr_l, E. field. lra.
Qed.

Lemma put_call_parity_witness :
  exists c p,
    BlackScholesPrice 1 1 0.05 0.30 1.4 1 = Ok c /\
    BlackScholesPrice 1 1 0.05 0.30 1.4 (-1) = Ok p /\
    c - p = 1 - 1 * exp (- (0.05) * 1.4).
Proof.
  apply (put_call_parity 1 1 0.05 0.30 1.4); lra.
Defined.



End BSFacts.

(** * Sensitivities of the Black formula *)

Module BSCalculus.
Import Gauss GaussFacts BS BSFacts.

(** Derivative rules, stated on plain functions. *)

Lemma dl_value f x l l' : derivable_pt_lim f x l -> l = l' -> derivable_pt_lim f x l'.
Proof. now intros H <-. Qed.

Lemma dl_plus f g x lf lg :
  derivable_pt_lim f x lf -> derivable_pt_lim g x lg ->
  derivable_pt_lim (fun y => f y + g y) x (lf + lg).
Proof. exact (derivable_pt_lim_plus f g x lf lg). Qed.

Lemma dl_minus f g x lf lg :
  derivable_pt_lim f x lf -> derivable_pt_lim g x lg ->
  derivable_pt_lim (fun y => f y - g y) x (lf - lg).
Proof. exact (derivable_pt_lim_minus f g x lf lg). Qed.

Lemma dl_mult f g x lf lg :
  derivable_pt_lim f x lf -> derivable_pt_lim g x lg ->
  derivable_pt_lim (fun y => f y * g y) x (lf * g x + f x * lg).
Proof. exact (derivable_pt_lim_mult f g x lf lg). Qed.

Lemma dl_scal a f x lf :
  derivable_pt_lim f x lf -> derivable_pt_lim (fun y => a * f y) x (a * lf).
Proof. exact (derivable_pt_lim_scal f a x lf). Qed.

Lemma dl_comp f g x lf lg :
  derivable_pt_lim f x lf -> derivable_pt_lim g (f x) lg ->
  derivable_pt_lim (fun y => g (f y)) x (lg * lf).
Proof. exact (derivable_pt_lim_comp f g x lf lg). Qed.

Lemma dl_div f g x lf lg :
  derivable_pt_lim f x lf -> derivable_pt_lim g x lg -> g x <> 0 ->
  derivable_pt_lim (fun y => f y / g y) x ((lf * g x - lg * f x) / Rsqr (g x)).
Proof. exact (derivable_pt_lim_div f g x lf lg). Qed.

Lemma dl_cdf_side phi f x lf :
  derivable_pt_lim f x lf ->
  derivable_pt_lim (fun y => cdf (phi * f y)) x (pdf (phi * f x) * (phi * lf)).
Proof.
  intros Hf. apply (dl_comp (fun y => phi * f y) cdf).
  - now apply dl_scal.
  - apply cdf_derivative.
Qed.

Lemma black_core_derivative (A B d1 nu : R -> R) (t DA DB D1 Dn phi : R) :
  phi = 1 \/ phi = -1 ->
  derivable_pt_lim A t DA -> derivable_pt_lim B t DB ->
  derivable_pt_lim d1 t D1 -> derivable_pt_lim nu t Dn ->
  A t * pdf (d1 t) = B t * pdf (d1 t - nu t) ->
  derivable_pt_lim
    (fun s => phi * (A s * cdf (phi * d1 s) - B s * cdf (phi * (d1 s - nu s)))) t
    (phi * (DA * cdf (phi * d1 t) - DB * cdf (phi * (d1 t - nu t)))
     + B t * pdf (d1 t - nu t) * Dn).
Proof.
  intros Hphi HA HB Hd1 Hnu Hid.
  eapply dl_value.
  - apply dl_scal. apply dl_minus.
    + apply dl_mult; [exact HA|]. apply dl_cdf_side. exact Hd1.
    + apply dl_mult; [exact HB|].
      apply (dl_cdf_side phi (fun s => d1 s - nu s)).
      apply dl_minus; [exact Hd1|exact Hnu].
  - cbv beta. rewrite !(pdf_side phi) by assumption.
    assert (P2 : phi * phi = 1) by (destruct Hphi as [->| ->]; ring).
    transitivity
      (phi * (DA * cdf (phi * d1 t) - DB * cdf (phi * (d1 t - nu t)))
       + (phi * phi) * (A t * pdf (d1 t)) * D1
       - (phi * phi) * (B t * pdf (d1 t - nu t)) * (D1 - Dn)); [ring|].
    rewrite P2, Hid. ring.
Qed.

Lemma pdf_shift m nu :
  0 < m -> nu <> 0 -> pdf (d1_of m nu - nu) = m * pdf (d1_of m nu).
Proof.
  intros Hm Hnu. unfold pdf, d1_of.
  replace (- ((ln m / nu + nu / 2 - nu) * (ln m / nu + nu / 2 - nu)) / 2)
    with (- ((ln m / nu + nu / 2) * (ln m / nu + nu / 2)) / 2 + ln m) by (field; assumption).
  rewrite exp_plus, exp_ln by assumption. field.
  pose proof sqrt_2PI_pos. lra.
Qed.

Lemma d1_of_derivable_nu m nu :
  nu <> 0 -> derivable_pt_lim (fun s => d1_of m s) nu ((0 * nu - 1 * ln m) / Rsqr nu + 1 / 2).
Proof.
  intros Hnu. unfold d1_of.
  apply dl_plus.
  - apply (dl_div (fun _ => ln m) (fun s => s)); [apply derivable_pt_lim_const|apply derivable_pt_lim_id|exact Hnu].
  - apply (derivable_pt_lim_div_scal id nu 1 2). apply derivable_pt_lim_id.
Qed.

Lemma formula_derivative_nu m nu phi :
  0 < m -> 0 < nu -> phi = 1 \/ phi = -1 ->
  derivable_pt_lim (fun s => BlackOverK_formula m s phi) nu (pdf (d1_of m nu - nu)).
Proof.
  intros Hm Hnu Hphi. unfold BlackOverK_formula.
  eapply dl_value.
  - eapply derivable_pt_lim_ext;
      [|apply (black_core_derivative (fun _ => m) (fun _ => 1) (fun s => d1_of m s) (fun s => s)
                 nu 0 0 ((0 * nu - 1 * ln m) / Rsqr nu + 1 / 2) 1 phi Hphi)].
    + intros z. cbv beta. rewrite Rmult_1_l. reflexivity.
    + apply derivable_pt_lim_const.
    + apply derivable_pt_lim_const.
    + apply d1_of_derivable_nu. lra.
    + apply derivable_pt_lim_id.
    + cbv beta. rewrite pdf_shift by lra. ring.
  - cbv beta. ring.
Qed.

Lemma formula_increasing m a b phi :
  0 < m -> 0 < a -> a < b -> phi = 1 \/ phi = -1 ->
  BlackOverK_formula m a phi < BlackOverK_formula m b phi.
Proof.
  intros Hm Ha Hab Hphi.
  destruct (MVT_cor2 (fun s => BlackOverK_formula m s phi)
              (fun s => pdf (d1_of m s - s)) a b Hab) as (c & Hc & _).
  - intros c Hc. apply formula_derivative_nu; [assumption|lra|assumption].
  - cbv beta in Hc. pose proof (pdf_pos (d1_of m c - c)). nra.
Qed.

Lemma moneyness_forms S K r t :
  0 < K -> S / exp (- r * t) / K = exp (r * t) * S / K.
Proof.
  intros HK. replace (- r * t) with (- (r * t)) by ring. rewrite exp_Ropp.
  field. pose proof (exp_pos (r * t)). lra.
Qed.

Lemma price_regular S K r sigma t phi :
  0 < S -> 0 < K -> 0 <= t -> 1e-12 <= sigma * sqrt t ->
  valof (BlackScholesPrice S K r sigma t phi) =
  phi * (S * cdf (phi * d1_of (exp (r * t) * S / K) (sigma * sqrt t))
         - K * exp (- r * t) *
           cdf (phi * (d1_of (exp (r * t) * S / K) (sigma * sqrt t) - sigma * sqrt t))).
Proof.
  intros HS HK Ht Hnu.
  pose proof (exp_pos (- r * t)) as Hdf.
  rewrite price_unfold by assumption.
  rewrite Black_regular; [|assumption|now apply Rdiv_lt_0_compat|assumption].
  cbn [bind valof]. unfold BlackOverK_formula.
  rewrite moneyness_forms by assumption.
  rewrite <- (moneyness_forms S K r t) at 1 by assumption.
  field. lra.
Qed.

Lemma theta_regular S K r sigma T phi :
  0 < S -> 0 < K -> 0 < sigma -> 0 < T ->
  BlackScholesTheta S K r sigma T phi =
  Ok (S * pdf (d1_of (exp (r * T) * S / K) (sigma * sqrt T)) * sigma / 2 / sqrt T
      + phi * r * K * exp (- r * T) *
        cdf (phi * (d1_of (exp (r * T) * S / K) (sigma * sqrt T) - sigma * sqrt T))).
Proof.
  intros HS HK Hsig HT.
  pose proof (sqrt_lt_R0 T HT) as HsT.
  pose proof (exp_pos (r * T)) as He.
  unfold BlackScholesTheta.
  rewrite fdiv_ok by lra. cbn [bind].
  rewrite fsqrt_ok by lra. cbn [bind].
  rewrite flog_ok by (apply Rdiv_lt_0_compat; nra). cbn [bind].
  rewrite fdiv_ok by nra. cbn [bind].
  rewrite fdiv_ok by lra. cbn [bind]. reflexivity.
Qed.

Lemma d1_T_derivable S K r sigma T :
  0 < S -> 0 < K -> 0 < sigma -> 0 < T ->
  exists D1,
    derivable_pt_lim (fun t => d1_of (exp (r * t) * S / K) (sigma * sqrt t)) T D1.
Proof.
  intros HS HK Hsig HT.
  pose proof (sqrt_lt_R0 T HT) as HsT.
  assert (Hsq : derivable_pt_lim (fun t => sigma * sqrt t) T (sigma * / (2 * sqrt T))).
  { apply dl_scal. now apply derivable_pt_lim_sqrt. }
  eexists.
  eapply (derivable_pt_lim_ext
            (fun t => (ln (S / K) + r * t) / (sigma * sqrt t) + sigma * sqrt t / 2)).
  - intros t. unfold d1_of. do 2 f_equal.
    replace (exp (r * t) * S / K) with (S / K * exp (r * t)) by (field; lra).
    rewrite ln_mult, ln_exp; [reflexivity|now apply Rdiv_lt_0_compat|apply exp_pos].
  - apply dl_plus.
    + apply (dl_div (fun t => ln (S / K) + r * t) (fun t => sigma * sqrt t)).
      * apply (dl_plus (fun _ => ln (S / K)) (fun t => r * t)).
        -- apply derivable_pt_lim_const.
        -- apply (dl_scal r (fun t => t)). apply derivable_pt_lim_id.
      * exact Hsq.
      * nra.
    + apply (derivable_pt_lim_div_scal (fun t => sigma * sqrt t) T (sigma * / (2 * sqrt T)) 2). exact Hsq.
Qed.

Lemma regular_neighbourhood sigma T :
  0 < sigma -> 0 < T -> 1e-12 < sigma * sqrt T ->
  exists a, 0 <= a /\ a < T /\ forall t, a < t -> 1e-12 <= sigma * sqrt t.
Proof.
  intros Hsig HT Hnu.
  set (c := 1e-12 / sigma).
  assert (Hc : 0 < c) by (apply Rdiv_lt_0_compat; lra).
  assert (HcT : c < sqrt T).
  { assert (Hsc : sigma * c = 1e-12) by (unfold c; field; lra).
    apply (Rmult_lt_reg_l sigma); lra. }
  exists (c * c). split; [nra|]. split.
  - rewrite <- (sqrt_sqrt T) by lra. nra.
  - intros t Ht.
    assert (c < sqrt t).
    { rewrite <- (sqrt_square c) by lra. apply sqrt_lt_1; nra. }
    assert (1e-12 = sigma * c) by (unfold c; field; lra).
    nra.
Qed.

(** The derivative of the price in the time to maturity, on the regular
    branch of [Black]. *)
Lemma price_T_derivative S K r sigma T phi :
  0 < S -> 0 < K -> 0 < sigma -> 0 < T -> 1e-12 < sigma * sqrt T ->
  phi = 1 \/ phi = -1 ->
  derivable_pt_lim (fun t => valof (BlackScholesPrice S K r sigma t phi)) T
    (S * pdf (d1_of (exp (r * T) * S / K) (sigma * sqrt T)) * sigma / 2 / sqrt T
     + phi * r * K * exp (- r * T) *
       cdf (phi * (d1_of (exp (r * T) * S / K) (sigma * sqrt T) - sigma * sqrt T))).
Proof.
  intros HS HK Hsig HT Hnu Hphi.
  pose proof (sqrt_lt_R0 T HT) as HsT.
  destruct (regular_neighbourhood sigma T Hsig HT Hnu) as (a & Ha0 & HaT & Hreg).
  destruct (d1_T_derivable S K r sigma T HS HK Hsig HT) as (D1 & HD1).
  set (D := fun t => d1_of (exp (r * t) * S / K) (sigma * sqrt t)) in *.
  apply (derivable_pt_lim_locally_ext
           (fun t => phi * ((fun _ => S) t * cdf (phi * D t)
                            - (fun t => K * exp (- r * t)) t
                              * cdf (phi * (D t - (fun t => sigma * sqrt t) t))))
           _ T a (T + 1)).
  - lra.
  - intros t Ht. cbv beta. symmetry. apply price_regular; try lra. apply Hreg; lra.
  - eapply dl_value.
    + apply (black_core_derivative (fun _ => S) (fun t => K * exp (- r * t)) D
               (fun t => sigma * sqrt t) T 0 (K * (exp (- r * T) * (- r))) D1
               (sigma * / (2 * sqrt T)) phi Hphi).
      * apply derivable_pt_lim_const.
      * apply dl_scal.
        apply (dl_comp (fun t => - r * t) exp T (- r) (exp (- r * T))).
        -- apply (dl_value _ _ (- r * 1)); [|ring].
           apply (dl_scal (- r) (fun t => t)). apply derivable_pt_lim_id.
        -- apply derivable_pt_lim_exp.
      * exact HD1.
      * apply dl_scal. now apply derivable_pt_lim_sqrt.
      * cbv beta. unfold D. rewrite pdf_shift.
        -- replace (- r * T) with (- (r * T)) by ring. rewrite exp_Ropp.
           field. pose proof (exp_pos (r * T)). lra.
        -- apply Rdiv_lt_0_compat; [|lra]. pose proof (exp_pos (r * T)). nra.
        -- nra.
    + cbv beta. unfold D. rewrite pdf_shift.
      * replace (- r * T) with (- (r * T)) by ring. rewrite exp_Ropp.
        field. pose proof (exp_pos (r * T)). lra.
      * apply Rdiv_lt_0_compat; [|lra]. pose proof (exp_pos (r * T)). nra.
      * nra.
Qed.

(** C4, as amended: on the regular branch ([sigma * sqrt T > 1e-12])
    [BlackScholesTheta] is the partial derivative of the price with
    respect to the time to maturity itself, [theta = + d(price)/dT],
    not its negative. *)
Theorem theta_is_maturity_derivative (S K r sigma T phi : R) :
  0 < S -> 0 < K -> 0 < sigma -> 0 < T -> 1e-12 < sigma * sqrt T ->
  phi = 1 \/ phi = -1 ->
  exists th,
    BlackScholesTheta S K r sigma T phi = Ok th /\
    derivable_pt_lim (fun t => valof (BlackScholesPrice S K r sigma t phi)) T th.
Proof.
  intros HS HK Hsig HT Hnu Hphi.
  exists (S * pdf (d1_of (exp (r * T) * S / K) (sigma * sqrt T)) * sigma / 2 / sqrt T
          + phi * r * K * exp (- r * T) *
            cdf (phi * (d1_of (exp (r * T) * S / K) (sigma * sqrt T) - sigma * sqrt T))).
  split.
  - now apply theta_regular.
  - now apply price_T_derivative.
Qed.

Lemma theta_is_maturity_derivative_witness :
  exists th,
    BlackScholesTheta 1 1 0.01 0.15 1 1 = Ok th /\
    derivable_pt_lim (fun t => valof (BlackScholesPrice 1 1 0.01 0.15 t 1)) 1 th.
Proof.
  apply (theta_is_maturity_derivative 1 1 0.01 0.15 1 1);
    try rewrite sqrt_1; lra.
Defined.

(** C4 as stated fails: for a call with [S = K = 1], [r = 0], [sigma = 1]
    and [T = 1] the value of [BlackScholesTheta] is positive and is the
    derivative of the price in [T], so its negative is not. *)
Lemma theta_is_not_negated_derivative :
  exists th,
    BlackScholesTheta 1 1 0 1 1 1 = Ok th /\
    ~ derivable_pt_lim (fun t => valof (BlackScholesPrice 1 1 0 1 t 1)) 1 (- th).
Proof.
  assert (Hreg : 1e-12 < 1 * sqrt 1) by (rewrite sqrt_1; lra).
  pose proof (price_T_derivative 1 1 0 1 1 1) as Hd.
  eexists. split; [apply theta_regular; lra|]. intros Hneg.
  specialize (Hd ltac:(lra) ltac:(lra) ltac:(lra) ltac:(lra) Hreg (or_introl eq_refl)).
  pose proof (uniqueness_limite _ _ _ _ Hd Hneg) as E.
  rewrite sqrt_1 in E.
  pose proof (pdf_pos (d1_of (exp (0 * 1) * 1 / 1) (1 * 1))) as Hp.
  lra.
Qed.

(** On the zero-variance branch the price is the discounted intrinsic
    value, and [BlackScholesTheta] is not its derivative in [T] with
    either sign: for an out-of-the-money call the price is constantly
    [0] around [T = 1] while theta is positive. *)
Lemma theta_on_zero_variance_branch :
  exists th,
    BlackScholesTheta 1 2 0 1e-13 1 1 = Ok th /\ 0 < th /\
    derivable_pt_lim (fun t => valof (BlackScholesPrice 1 2 0 1e-13 t 1)) 1 0.
Proof.
  eexists. split; [apply theta_regular; lra|]. split.
  - rewrite sqrt_1.
    pose proof (pdf_pos (d1_of (exp (0 * 1) * 1 / 2) (1e-13 * 1))). lra.
  - apply (derivable_pt_lim_locally_ext (fun _ => 0) _ 1 0 4); [lra| |].
    + intros t Ht.
      assert (Hs : sqrt t < 2).
      { rewrite <- (sqrt_square 2) by lra. apply sqrt_lt_1; lra. }
      rewrite price_unfold by lra. rewrite Black_degenerate by lra.
      cbn [bind valof]. replace (- 0 * t) with 0 by ring. rewrite exp_0.
      unfold Rmax. destruct (Rle_dec (1 * (1 / 1 - 2)) 0); lra.
    + apply derivable_pt_lim_const.
Qed.

End BSCalculus.

(** * Implied volatility *)

Module ImpliedVolFacts.
Import Gauss GaussFacts BS BSFacts BSCalculus.

(** *** Bisection meets the contract of the root finder *)

Lemma sign_handover fa fm fb : fa * fb <= 0 -> 0 < fa * fm -> fm * fb <= 0.
Proof.
  intros H1 H2.
  destruct (Rle_or_lt (fm * fb) 0) as [|H3]; [assumption|exfalso].
  assert (0 < (fa * fm) * (fm * fb)) by (apply Rmult_lt_0_compat; assumption).
  assert (0 <= fm * fm) by nra.
  nra.
Qed.

Lemma bisect_spec n : forall f a b fa fb x,
  a <= b -> f a = Ok fa -> f b = Ok fb -> fa * fb <= 0 ->
  bisect f a b fa n = Ok x ->
  exists y fx fy,
    a <= x /\ x <= y /\ y <= b /\ f x = Ok fx /\ f y = Ok fy /\
    fx * fy <= 0 /\ y - x = (b - a) / 2 ^ n.
Proof.
  induction n as [|n IH]; intros f a b fa fb x Hab Ha Hb Hs Hx.
  - cbn [bisect] in Hx. injection Hx as <-.
    exists b, fa, fb. repeat split; try assumption; try lra; simpl; lra.
  - cbn [bisect] in Hx.
    destruct (f ((a + b) / 2)) as [fm|e] eqn:Hm; cbn [bind] in Hx; [|discriminate].
    destruct (Rle_dec (fa * fm) 0) as [Hle|Hgt].
    + destruct (IH f a ((a + b) / 2) fa fm x) as (y & fx & fy & H1 & H2 & H3 & H4 & H5 & H6 & H7);
        try assumption; try lra.
      exists y, fx, fy. repeat split; try assumption; try lra.
      rewrite H7. cbn [pow]. field. apply pow_nonzero. lra.
    + destruct (IH f ((a + b) / 2) b fm fb x) as (y & fx & fy & H1 & H2 & H3 & H4 & H5 & H6 & H7);
        try assumption; try lra.
      { apply (sign_handover fa); lra. }
      exists y, fx, fy. repeat split; try assumption; try lra.
      rewrite H7. cbn [pow]. field. apply pow_nonzero. lra.
Qed.

Lemma bisect_total n : forall f a b fa,
  a <= b -> (forall x, a <= x <= b -> exists y, f x = Ok y) ->
  exists x, bisect f a b fa n = Ok x.
Proof.
  induction n as [|n IH]; intros f a b fa Hab Htot.
  - now exists a.
  - cbn [bisect]. destruct (Htot ((a + b) / 2)) as [fm ->]; [lra|]. cbn [bind].
    destruct (Rle_dec (fa * fm) 0).
    + apply IH; [lra|]. intros x Hx. apply Htot. lra.
    + apply IH; [lra|]. intros x Hx. apply Htot. lra.
Qed.

Lemma INR_lt_pow2 n : INR n < 2 ^ n.
Proof.
  induction n as [|n IH].
  - simpl. lra.
  - rewrite S_INR. cbn [pow].
    assert (1 <= 2 ^ n) by (apply pow_R1_Rle; lra). lra.
Qed.

Lemma bisect_steps_enough a b xtol :
  a < b -> 0 < xtol ->
  (b - a) / 2 ^ Z.to_nat (up ((b - a) / xtol)) <= xtol.
Proof.
  intros Hab Hx.
  set (q := (b - a) / xtol).
  assert (Hq : 0 < q) by (apply Rdiv_lt_0_compat; lra).
  destruct (archimed q) as [Hup _].
  assert (Hz : (0 < up q)%Z) by (apply lt_IZR; lra).
  set (n := Z.to_nat (up q)).
  assert (Hn : INR n = IZR (up q)).
  { unfold n. rewrite INR_IZR_INZ, Z2Nat.id by lia. reflexivity. }
  pose proof (INR_lt_pow2 n) as Hp.
  assert (Hq2 : q < 2 ^ n) by lra.
  assert (Hpos : 0 < 2 ^ n) by (apply pow_lt; lra).
  apply (Rmult_le_reg_r (2 ^ n)); [assumption|].
  unfold Rdiv. rewrite Rmult_assoc, Rinv_l, Rmult_1_r by lra.
  assert (b - a = q * xtol) by (unfold q; field; lra).
  nra.
Qed.

Lemma rtol_pos : 0 < rtol.
Proof. unfold rtol. apply Rdiv_lt_0_compat; [lra|apply pow_lt; lra]. Qed.

Lemma bisection_contract : brentq_contract bisection.
Proof.
  constructor.
  - intros f a b xtol x Hab Hx. unfold bisection in Hx.
    destruct (f a) as [fa|] eqn:Ha; cbn [bind] in Hx; [|discriminate].
    destruct (f b) as [fb|] eqn:Hb; cbn [bind] in Hx; [|discriminate].
    destruct (Rlt_dec 0 (fa * fb)); [discriminate|].
    destruct (bisect_spec _ f a b fa fb x Hab Ha Hb ltac:(lra) Hx)
      as (y & fx & fy & H1 & H2 & H3 & _). lra.
  - intros f a b xtol fa fb Ha Hb Hs. unfold bisection.
    rewrite Ha, Hb. cbn [bind]. destruct (Rlt_dec 0 (fa * fb)); [reflexivity|contradiction].
  - intros f a b xtol fa fb Hab Hx Htot Ha Hb Hs. unfold bisection.
    rewrite Ha, Hb. cbn [bind]. destruct (Rlt_dec 0 (fa * fb)); [lra|].
    apply bisect_total; [lra|assumption].
  - intros f a b xtol x Hab Hxt Hx. unfold bisection in Hx.
    destruct (f a) as [fa|] eqn:Ha; cbn [bind] in Hx; [|discriminate].
    destruct (f b) as [fb|] eqn:Hb; cbn [bind] in Hx; [|discriminate].
    destruct (Rlt_dec 0 (fa * fb)); [discriminate|].
    destruct (bisect_spec _ f a b fa fb x ltac:(lra) Ha Hb ltac:(lra) Hx)
      as (y & fx & fy & H1 & H2 & H3 & H4 & H5 & H6 & H7).
    exists y, fx, fy. repeat split; try assumption; try lra.
    pose proof (bisect_steps_enough a b xtol Hab Hxt) as Hs.
    pose proof rtol_pos. pose proof (Rabs_pos x).
    rewrite Rabs_left1 by lra. nra.
Qed.

Lemma Black_value_increasing F K phi a b :
  0 < F -> 0 < K -> phi = 1 \/ phi = -1 -> 0 < a -> a < b ->
  K * BlackOverK_formula (F / K) a phi < K * BlackOverK_formula (F / K) b phi.
Proof.
  intros HF HK Hphi Ha Hab.
  apply Rmult_lt_compat_l; [assumption|].
  apply formula_increasing; try assumption. now apply Rdiv_lt_0_compat.
Qed.

Lemma Black_value_continuous F K phi nu :
  0 < F -> 0 < K -> phi = 1 \/ phi = -1 -> 0 < nu ->
  continuity_pt (fun s => K * BlackOverK_formula (F / K) s phi) nu.
Proof.
  intros HF HK Hphi Hnu. apply derivable_continuous_pt.
  exists (K * pdf (d1_of (F / K) nu - nu)).
  apply dl_scal. apply formula_derivative_nu; try assumption.
  now apply Rdiv_lt_0_compat.
Qed.

Lemma objective_regular price K F phi nu :
  1e-12 <= nu -> 0 < F -> 0 < K ->
  objective price K F phi nu = Ok (K * BlackOverK_formula (F / K) nu phi - price).
Proof.
  intros Hnu HF HK. unfold objective. now rewrite Black_regular.
Qed.

Lemma objective_degenerate price K F phi nu :
  nu < 1e-12 ->
  objective price K F phi nu = Ok (Rmax (phi * (F - K)) 0 - price).
Proof.
  intros Hnu. unfold objective. now rewrite Black_degenerate.
Qed.

Lemma objective_total price K F phi nu :
  0 < F -> 0 < K -> exists y, objective price K F phi nu = Ok y.
Proof.
  intros HF HK. destruct (Rlt_dec nu 1e-12).
  - rewrite objective_degenerate by assumption. eauto.
  - rewrite objective_regular by lra. eauto.
Qed.

(** A strictly increasing function changes sign only across its root. *)
Lemma root_between (g : R -> R) (lo hi x y n0 p : R) :
  (forall a b, lo <= a -> a < b -> b <= hi -> g a < g b) ->
  lo <= x <= hi -> lo <= y <= hi -> lo <= n0 <= hi ->
  g n0 = p -> (g x - p) * (g y - p) <= 0 ->
  Rabs (x - n0) <= Rabs (x - y).
Proof.
  intros Hinc Hx Hy Hn Hroot Hsign.
  destruct (Rtotal_order x n0) as [Hlt|[->|Hgt]].
  - assert (g x < p) by (rewrite <- Hroot; apply Hinc; lra).
    destruct (Rle_or_lt n0 y) as [Hy'|Hy'].
    + rewrite !Rabs_left1 by lra. lra.
    + assert (g y < p) by (rewrite <- Hroot; apply Hinc; lra). nra.
  - rewrite Rminus_diag, Rabs_R0. apply Rabs_pos.
  - assert (p < g x) by (rewrite <- Hroot; apply Hinc; lra).
    destruct (Rle_or_lt y n0) as [Hy'|Hy'].
    + rewrite !Rabs_right by lra. lra.
    + assert (p < g y) by (rewrite <- Hroot; apply Hinc; lra). nra.
Qed.

(** A continuous function takes every value between those at the ends. *)
Lemma value_attained (g : R -> R) (lo hi p : R) :
  lo < hi -> (forall a, lo <= a <= hi -> continuity_pt g a) ->
  g lo <= p <= g hi -> exists n0, lo <= n0 <= hi /\ g n0 = p.
Proof.
  intros Hlh Hc [[Hl|Hl] [Hh|Hh]].
  - destruct (IVT_interv (fun s => g s - p) lo hi) as (z & Hz & Ez); try lra.
    + intros a Ha. apply (continuity_pt_minus g (fun _ => p)); [now apply Hc|].
      apply continuity_pt_const. intros ? ?. reflexivity.
    + exists z. split; [assumption|lra].
  - exists hi. split; lra.
  - exists lo. split; lra.
  - exists lo. split; lra.
Qed.

Section ImpliedVol.

Variable brentq : root_finder.
Hypothesis contract : brentq_contract brentq.

Lemma BlackImpliedVol_unfold price K F T phi :
  0 < T ->
  BlackImpliedVol brentq price K F T phi =
  (x <- brentq (objective price K F phi) (0.01 * sqrt T) (1.00 * sqrt T) 1e-8 ;;
   Ok (x / sqrt T)).
Proof.
  intros HT. pose proof (sqrt_lt_R0 T HT) as Hs.
  unfold BlackImpliedVol. rewrite fsqrt_ok by lra. cbn [bind].
  destruct (brentq _ _ _ _); cbn [bind]; [|reflexivity].
  apply fdiv_ok. lra.
Qed.

(** On a bracket that lies on the regular branch: the solver's answer is
    within its tolerance of every exact root. *)
Lemma solver_near_root price K F phi lo hi x n0 :
  0 < F -> 0 < K -> phi = 1 \/ phi = -1 ->
  1e-12 <= lo -> lo < hi -> lo <= n0 <= hi ->
  K * BlackOverK_formula (F / K) n0 phi = price ->
  brentq (objective price K F phi) lo hi 1e-8 = Ok x ->
  lo <= x <= hi /\ Rabs (x - n0) <= 1e-8 + rtol * Rabs x.
Proof.
  intros HF HK Hphi Hlo Hlh Hn Hroot Hx.
  assert (Htol : 0 < 1e-8) by lra.
  pose proof (brentq_in_bracket _ contract _ _ _ _ _ (Rlt_le _ _ Hlh) Hx) as Hin.
  split; [exact Hin|].
  destruct (brentq_accuracy _ contract _ _ _ _ _ Hlh Htol Hx)
    as (y & fx & fy & Hy & Hfx & Hfy & Hs & Hacc).
  rewrite objective_regular in Hfx, Hfy by lra.
  injection Hfx as <-. injection Hfy as <-.
  eapply Rle_trans; [|exact Hacc].
  apply (root_between (fun s => K * BlackOverK_formula (F / K) s phi) lo hi x y n0 price);
    try assumption.
  intros a b Ha Hab Hb. apply Black_value_increasing; try assumption; lra.
Qed.

End ImpliedVol.

Lemma rtol_small : rtol < 1e-9.
Proof. unfold rtol. lra. Qed.

Lemma sqrt_bounds T : 0.1 < T < 2 -> 0.3 < sqrt T < 1.5.
Proof.
  intros [H1 H2]. split.
  - rewrite <- (sqrt_square 0.3) by lra. apply sqrt_lt_1; lra.
  - rewrite <- (sqrt_square 1.5) by lra. apply sqrt_lt_1; lra.
Qed.

Lemma price_zero_rate F K sigma T phi :
  0 <= T ->
  BlackScholesPrice F K 0 sigma T phi =
  (b <- Black F K (sigma * sqrt T) phi ;; Ok b).
Proof.
  intros HT. rewrite price_unfold by assumption.
  replace (- 0 * T) with 0 by ring. rewrite exp_0.
  replace (F / 1) with F by field.
  destruct (Black _ _ _ _); cbn [bind]; [|reflexivity].
  now rewrite Rmult_1_l.
Qed.

Section Bracket.

Variable brentq : root_finder.
Hypothesis contract : brentq_contract brentq.

Variables (price K F T phi : R) (g : R -> R).

Hypothesis T_pos : 0 < T.
Hypothesis Black_on_bracket :
  forall nu, 0.01 * sqrt T <= nu <= 1.00 * sqrt T -> Black F K nu phi = Ok (g nu).
Hypothesis g_monotone :
  forall nu, 0.01 * sqrt T <= nu <= 1.00 * sqrt T ->
             g (0.01 * sqrt T) <= g nu <= g (1.00 * sqrt T).
Hypothesis g_root :
  forall x y, 0.01 * sqrt T <= x <= 1.00 * sqrt T ->
              0.01 * sqrt T <= y <= 1.00 * sqrt T ->
              (g x - price) * (g y - price) <= 0 ->
              exists n0, 0.01 * sqrt T <= n0 <= 1.00 * sqrt T /\ g n0 = price /\
                         Rabs (x - n0) <= Rabs (x - y).

Lemma bracket_objective nu :
  0.01 * sqrt T <= nu <= 1.00 * sqrt T ->
  objective price K F phi nu = Ok (g nu - price).
Proof. intros H. unfold objective. now rewrite Black_on_bracket. Qed.

Lemma bracket_success :
  g (0.01 * sqrt T) <= price <= g (1.00 * sqrt T) ->
  exists x n0,
    brentq (objective price K F phi) (0.01 * sqrt T) (1.00 * sqrt T) 1e-8 = Ok x /\
    BlackImpliedVol brentq price K F T phi = Ok (x / sqrt T) /\
    0.01 * sqrt T <= x <= 1.00 * sqrt T /\
    0.01 * sqrt T <= n0 <= 1.00 * sqrt T /\
    Black F K n0 phi = Ok price /\
    Rabs (x - n0) <= 1e-8 + rtol * Rabs x.
Proof.
  intros Hp. pose proof (sqrt_lt_R0 T T_pos) as Hs.
  assert (Hlh : 0.01 * sqrt T < 1.00 * sqrt T) by lra.
  assert (Htol : 0 < 1e-8) by lra.
  destruct (brentq_converges _ contract (objective price K F phi)
              (0.01 * sqrt T) (1.00 * sqrt T) 1e-8
              (g (0.01 * sqrt T) - price) (g (1.00 * sqrt T) - price) Hlh Htol)
    as [x Hx].
  - intros y Hy. rewrite bracket_objective by assumption. eauto.
  - apply bracket_objective. lra.
  - apply bracket_objective. lra.
  - nra.
  - pose proof (brentq_in_bracket _ contract _ _ _ _ _ (Rlt_le _ _ Hlh) Hx) as Hin.
    destruct (brentq_accuracy _ contract _ _ _ _ _ Hlh Htol Hx)
      as (y & fx & fy & Hy & Hfx & Hfy & Hsgn & Hacc).
    rewrite bracket_objective in Hfx, Hfy by assumption.
    injection Hfx as <-. injection Hfy as <-.
    destruct (g_root x y Hin Hy Hsgn) as (n0 & Hn0 & Hroot & Hnear).
    exists x, n0. split; [exact Hx|]. split.
    { rewrite BlackImpliedVol_unfold by assumption. rewrite Hx. reflexivity. }
    split; [exact Hin|]. split; [exact Hn0|]. split.
    { rewrite Black_on_bracket by assumption. now rewrite Hroot. }
    lra.
Qed.

Lemma bracket_failure :
  BlackImpliedVol brentq price K F T phi = Err NoRootInBracket <->
  price < g (0.01 * sqrt T) \/ g (1.00 * sqrt T) < price.
Proof.
  pose proof (sqrt_lt_R0 T T_pos) as Hs.
  pose proof (g_monotone (0.01 * sqrt T) ltac:(lra)) as Hmono.
  split.
  - intros Herr.
    destruct (Rlt_dec price (g (0.01 * sqrt T))) as [|H1]; [now left|].
    destruct (Rlt_dec (g (1.00 * sqrt T)) price) as [|H2]; [now right|].
    destruct bracket_success as (x & n0 & _ & Hok & _); [lra|].
    rewrite Hok in Herr. discriminate.
  - intros Hout. rewrite BlackImpliedVol_unfold by assumption.
    rewrite (brentq_sign_error _ contract _ _ _ _
               (g (0.01 * sqrt T) - price) (g (1.00 * sqrt T) - price)).
    + reflexivity.
    + apply bracket_objective. lra.
    + apply bracket_objective. lra.
    + destruct Hout; nra.
Qed.

Lemma bracket_outside :
  price < g (0.01 * sqrt T) \/ g (1.00 * sqrt T) < price <->
  ~ exists nu, 0.01 * sqrt T <= nu <= 1.00 * sqrt T /\ Black F K nu phi = Ok price.
Proof.
  pose proof (sqrt_lt_R0 T T_pos) as Hs.
  split.
  - intros Hout (nu & Hnu & HB). rewrite Black_on_bracket in HB by assumption.
    injection HB as HB. pose proof (g_monotone nu Hnu). lra.
  - intros Hno.
    destruct (Rlt_dec price (g (0.01 * sqrt T))) as [|H1]; [now left|].
    destruct (Rlt_dec (g (1.00 * sqrt T)) price) as [|H2]; [now right|].
    exfalso. apply Hno.
    destruct (g_root (0.01 * sqrt T) (1.00 * sqrt T)) as (n0 & Hn0 & Hroot & _);
      try lra; [nra|].
    exists n0. split; [assumption|]. rewrite Black_on_bracket by assumption.
    now rewrite Hroot.
Qed.

End Bracket.

Lemma regular_bracket brentq price K F T phi :
  brentq_contract brentq ->
  0 < K -> 0 < F -> 0 < T -> phi = 1 \/ phi = -1 ->
  1e-12 <= 0.01 * sqrt T ->
  let g := fun nu => K * BlackOverK_formula (F / K) nu phi in
  (forall nu, 0.01 * sqrt T <= nu <= 1.00 * sqrt T -> Black F K nu phi = Ok (g nu)) /\
  g (0.01 * sqrt T) < g (1.00 * sqrt T) /\
  (BlackImpliedVol brentq price K F T phi = Err NoRootInBracket <->
   price < g (0.01 * sqrt T) \/ g (1.00 * sqrt T) < price) /\
  (price < g (0.01 * sqrt T) \/ g (1.00 * sqrt T) < price <->
   ~ exists nu, 0.01 * sqrt T <= nu <= 1.00 * sqrt T /\
                Black F K nu phi = Ok price) /\
  (g (0.01 * sqrt T) <= price <= g (1.00 * sqrt T) ->
   exists x n0,
     brentq (objective price K F phi) (0.01 * sqrt T) (1.00 * sqrt T) 1e-8 = Ok x /\
     BlackImpliedVol brentq price K F T phi = Ok (x / sqrt T) /\
     0.01 * sqrt T <= x <= 1.00 * sqrt T /\
     0.01 * sqrt T <= n0 <= 1.00 * sqrt T /\
     Black F K n0 phi = Ok price /\
     Rabs (x - n0) <= 1e-8 + rtol * Rabs x).
Proof.
  intros Hc HK HF HT Hphi Hreg g.
  pose proof (sqrt_lt_R0 T HT) as Hs.
  assert (HB : forall nu, 0.01 * sqrt T <= nu <= 1.00 * sqrt T ->
                          Black F K nu phi = Ok (g nu))
    by (intros nu Hnu; apply Black_regular; lra).
  assert (Hinc : forall a b, 0.01 * sqrt T <= a -> a < b -> b <= 1.00 * sqrt T ->
                             g a < g b)
    by (intros a b Ha Hab Hb; apply Black_value_increasing; try assumption; lra).
  assert (Hmono : forall nu, 0.01 * sqrt T <= nu <= 1.00 * sqrt T ->
                             g (0.01 * sqrt T) <= g nu <= g (1.00 * sqrt T)).
  { intros nu [[H1|H1] [H2|H2]]; split;
      try (left; apply Hinc; lra); try (subst; right; reflexivity);
      try (rewrite <- H1; right; reflexivity); try (rewrite H2; right; reflexivity). }
  assert (Hroot : forall x y, 0.01 * sqrt T <= x <= 1.00 * sqrt T ->
              0.01 * sqrt T <= y <= 1.00 * sqrt T ->
              (g x - price) * (g y - price) <= 0 ->
              exists n0, 0.01 * sqrt T <= n0 <= 1.00 * sqrt T /\ g n0 = price /\
                         Rabs (x - n0) <= Rabs (x - y)).
  { intros x y Hx Hy Hsgn.
    assert (Hbetween : g (0.01 * sqrt T) <= price <= g (1.00 * sqrt T)).
    { pose proof (Hmono x Hx). pose proof (Hmono y Hy). nra. }
    destruct (value_attained g (0.01 * sqrt T) (1.00 * sqrt T) price)
      as (n0 & Hn0 & E); [lra| |assumption|].
    - intros a Ha. apply Black_value_continuous; try assumption. lra.
    - exists n0. split; [assumption|]. split; [assumption|].
      now apply (root_between g (0.01 * sqrt T) (1.00 * sqrt T) x y n0 price). }
  split; [exact HB|]. split; [apply Hinc; lra|].
  split; [now apply (bracket_failure brentq Hc price K F T phi g)|].
  split; [now apply (bracket_outside price K F T phi g)|].
  now apply (bracket_success brentq Hc price K F T phi g).
Qed.


(** C6, as amended: in exact real arithmetic, pricing followed by
    implied-volatility inversion recovers the volatility.  For [sigma] in [(0.05, 1)], [T] in [(0.1, 2)] and
    [K, F > 0] the forward price [p = Black(F, K, sigma*sqrt T, phi)]
    (which is [BlackScholesPrice] at zero rate) is defined, and
    [BlackImpliedVol(p, K, F, T, phi)] returns a value within [1e-6] of
    [sigma], for every root finder that meets the contract of [brentq]. *)
Theorem implied_vol_round_trip (brentq : root_finder) (sigma T K F phi : R) :
  brentq_contract brentq ->
  0.05 < sigma < 1.0 -> 0.1 < T < 2 -> 0 < K -> 0 < F ->
  phi = 1 \/ phi = -1 ->
  exists p v,
    Black F K (sigma * sqrt T) phi = Ok p /\
    BlackScholesPrice F K 0 sigma T phi = Ok p /\
    BlackImpliedVol brentq p K F T phi = Ok v /\
    Rabs (v - sigma) < 1e-6.
Proof.
  intros Hc Hsig HT HK HF Hphi.
  pose proof (sqrt_bounds T HT) as Hs.
  set (s := sqrt T) in *.
  set (g := fun nu => K * BlackOverK_formula (F / K) nu phi).
  assert (Hinc : forall a b, 0 < a -> a < b -> g a < g b)
    by (intros a b Ha Hab; now apply Black_value_increasing).
  assert (Hlo : 1e-12 <= 0.01 * s) by lra.
  assert (Hn : 0.01 * s < sigma * s < 1.00 * s) by nra.
  exists (g (sigma * s)).
  assert (HB : Black F K (sigma * s) phi = Ok (g (sigma * s)))
    by (apply Black_regular; lra).
  assert (Htol : 0 < 1e-8) by lra.
  destruct (brentq_converges _ Hc (objective (g (sigma * s)) K F phi)
              (0.01 * s) (1.00 * s) 1e-8
              (g (0.01 * s) - g (sigma * s)) (g (1.00 * s) - g (sigma * s)))
    as [x Hx]; try lra.
  - intros y _. now apply objective_total.
  - apply objective_regular; lra.
  - apply objective_regular; lra.
  - assert (g (0.01 * s) < g (sigma * s)) by (apply Hinc; lra).
    assert (g (sigma * s) < g (1.00 * s)) by (apply Hinc; lra).
    nra.
  - destruct (solver_near_root brentq Hc (g (sigma * s)) K F phi
                (0.01 * s) (1.00 * s) x (sigma * s)) as [Hin Hnear];
      try assumption; try lra; try reflexivity.
    exists (x / s). split; [exact HB|]. split.
    { rewrite price_zero_rate by lra. fold s. rewrite HB. reflexivity. }
    split.
    { rewrite BlackImpliedVol_unfold by lra. fold s. rewrite Hx. reflexivity. }
    pose proof rtol_small as Hr. pose proof rtol_pos as Hr0.
    assert (Hxabs : Rabs x <= 1.5) by (rewrite Rabs_right; lra).
    assert (Hb : Rabs (x - sigma * s) < 3e-7) by nra.
    apply Rabs_def2 in Hb. destruct Hb as [Hb1 Hb2].
    replace (x / s - sigma) with ((x - sigma * s) / s) by (field; lra).
    apply Rabs_def1.
    + apply (Rmult_lt_reg_r s); [lra|].
      unfold Rdiv. rewrite Rmult_assoc, Rinv_l, Rmult_1_r by lra. nra.
    + apply (Rmult_lt_reg_r s); [lra|].
      unfold Rdiv. rewrite Rmult_assoc, Rinv_l, Rmult_1_r by lra. nra.
Qed.

Lemma implied_vol_round_trip_witness :
  exists p v,
    Black 1 1 (0.15 * sqrt 1) 1 = Ok p /\
    BlackScholesPrice 1 1 0 0.15 1 1 = Ok p /\
    BlackImpliedVol bisection p 1 1 1 1 = Ok v /\
    Rabs (v - 0.15) < 1e-6.
Proof.
  apply (implied_vol_round_trip bisection 0.15 1 1 1 1 bisection_contract); lra.
Defined.




Lemma at_the_money_value nu :
  0 < nu -> 0 < 1 * BlackOverK_formula (1 / 1) nu 1.
Proof.
  intros Hnu. unfold BlackOverK_formula.
  assert (cdf (1 * (d1_of (1 / 1) nu - nu)) < cdf (1 * d1_of (1 / 1) nu))
    by (apply cdf_increasing; lra).
  lra.
Qed.


Lemma regular_at_one : 1e-12 <= 0.01 * sqrt 1.
Proof. rewrite sqrt_1. lra. Qed.

(** A price strictly between the intrinsic value and the value at the
    lower end of the bracket is not below intrinsic, and fails too. *)
Lemma failure_above_intrinsic :
  exists Bmin,
    Black 1 1 (0.01 * sqrt 1) 1 = Ok Bmin /\
    Rmax (1 * (1 - 1)) 0 < Bmin / 2 /\
    BlackImpliedVol bisection (Bmin / 2) 1 1 1 1 = Err NoRootInBracket.
Proof.
  pose proof regular_at_one as Hs.
  destruct (regular_bracket bisection
              (1 * BlackOverK_formula (1 / 1) (0.01 * sqrt 1) 1 / 2) 1 1 1 1
              bisection_contract)
    as (HB & _ & Hfail & _); try lra.
  pose proof (at_the_money_value (0.01 * sqrt 1) ltac:(lra)) as Hpos.
  eexists. split; [apply Black_regular; lra|]. split.
  - replace (1 * (1 - 1)) with 0 by ring. unfold Rmax.
    destruct (Rle_dec 0 0); lra.
  - apply Hfail. left. lra.
Qed.

(** C10, as amended: in exact real arithmetic, whenever
    [BlackImpliedVol] with [T > 0] returns a value, that value lies in
    [[0.01, 1.00]]: the root finder answers inside the bracket
    [[0.01*sqrt T, 1.00*sqrt T]] and the answer is divided by
    [sqrt T]. *)
Theorem implied_vol_between_1_and_100_percent
  (brentq : root_finder) (price K F T phi v : R) :
  brentq_contract brentq ->
  0 < T ->
  BlackImpliedVol brentq price K F T phi = Ok v ->
  0.01 <= v <= 1.00.
Proof.
  intros contract HT Hv. pose proof (sqrt_lt_R0 T HT) as Hs.
  rewrite BlackImpliedVol_unfold in Hv by assumption.
  destruct (brentq _ _ _ _) as [x|] eqn:Hx; cbn [bind] in Hv; [|discriminate].
  injection Hv as <-.
  apply (brentq_in_bracket _ contract) in Hx; [|lra].
  split.
  - apply (Rmult_le_reg_r (sqrt T)); [assumption|].
    unfold Rdiv. rewrite Rmult_assoc, Rinv_l, Rmult_1_r by lra. lra.
  - apply (Rmult_le_reg_r (sqrt T)); [assumption|].
    unfold Rdiv. rewrite Rmult_assoc, Rinv_l, Rmult_1_r by lra. lra.
Qed.

Lemma implied_vol_between_1_and_100_percent_witness :
  0.01 <= valof (BlackImpliedVol bisection
                   (1 * BlackOverK_formula (1 / 1) (0.01 * sqrt 1) 1) 1 1 1 1)
       <= 1.00.
Proof.
  pose proof regular_at_one as Hs.
  destruct (regular_bracket bisection
              (1 * BlackOverK_formula (1 / 1) (0.01 * sqrt 1) 1) 1 1 1 1
              bisection_contract)
    as (_ & Hlt & _ & _ & Hok); try lra.
  destruct Hok as (x & n0 & _ & Hv & _); [lra|].
  rewrite Hv. cbn [valof].
  apply (implied_vol_between_1_and_100_percent bisection
           (1 * BlackOverK_formula (1 / 1) (0.01 * sqrt 1) 1) 1 1 1 1 _
           bisection_contract); [lra|exact Hv].
Defined.

End ImpliedVolFacts.

(** * Sensitivities and the pricing equation *)

Module GreeksFacts.
Import Gauss GaussFacts BS BSFacts BSCalculus ImpliedVolFacts Greeks.

(** *** The sensitivities on their domain *)

Lemma greek_d1 S K r sigma T :
  0 < S -> 0 < K -> sigma <> 0 -> 0 < T ->
  fdiv (exp (r * T) * S) K = Ok (exp (r * T) * S / K) /\
  fsqrt T = Ok (sqrt T) /\
  flog (exp (r * T) * S / K) = Ok (ln (exp (r * T) * S / K)) /\
  fdiv (ln (exp (r * T) * S / K)) (sigma * sqrt T) =
    Ok (ln (exp (r * T) * S / K) / (sigma * sqrt T)).
Proof.
  intros HS HK Hsig HT.
  pose proof (sqrt_lt_R0 T HT) as HsT.
  pose proof (exp_pos (r * T)) as He.
  split; [apply fdiv_ok; lra|]. split; [apply fsqrt_ok; lra|].
  split; [apply flog_ok; apply Rdiv_lt_0_compat; nra|].
  apply fdiv_ok. nra.
Qed.

Lemma delta_regular S K r sigma T phi :
  0 < S -> 0 < K -> sigma <> 0 -> 0 < T ->
  BlackScholesDelta S K r sigma T phi =
  Ok (phi * cdf (phi * d1_of (exp (r * T) * S / K) (sigma * sqrt T))).
Proof.
  intros HS HK Hsig HT.
  destruct (greek_d1 S K r sigma T HS HK Hsig HT) as (E1 & E2 & E3 & E4).
  unfold BlackScholesDelta. rewrite E1. cbn [bind]. rewrite E2. cbn [bind].
  rewrite E3. cbn [bind]. rewrite E4. reflexivity.
Qed.

Lemma gamma_regular S K r sigma T phi :
  0 < S -> 0 < K -> sigma <> 0 -> 0 < T ->
  BlackScholesGamma S K r sigma T phi =
  Ok (pdf (d1_of (exp (r * T) * S / K) (sigma * sqrt T)) / S / (sigma * sqrt T)).
Proof.
  intros HS HK Hsig HT.
  destruct (greek_d1 S K r sigma T HS HK Hsig HT) as (E1 & E2 & E3 & E4).
  pose proof (sqrt_lt_R0 T HT) as HsT.
  unfold BlackScholesGamma. rewrite E1. cbn [bind]. rewrite E2. cbn [bind].
  rewrite E3. cbn [bind]. rewrite E4. cbn [bind].
  rewrite fdiv_ok by lra. cbn [bind]. apply fdiv_ok. nra.
Qed.

Lemma rho_regular S K r sigma T phi :
  0 < S -> 0 < K -> sigma <> 0 -> 0 < T ->
  BlackScholesRho S K r sigma T phi =
  Ok (phi * K * T * exp (- r * T) *
      cdf (phi * (d1_of (exp (r * T) * S / K) (sigma * sqrt T) - sigma * sqrt T))).
Proof.
  intros HS HK Hsig HT.
  destruct (greek_d1 S K r sigma T HS HK Hsig HT) as (E1 & E2 & E3 & E4).
  unfold BlackScholesRho. rewrite E1. cbn [bind]. rewrite E2. cbn [bind].
  rewrite E3. cbn [bind]. rewrite E4. reflexivity.
Qed.

Lemma vega_regular S K r sigma T phi :
  0 < S -> 0 < K -> sigma <> 0 -> 0 < T ->
  BlackScholesVega S K r sigma T phi =
  Ok (S * pdf (d1_of (exp (r * T) * S / K) (sigma * sqrt T)) * sqrt T).
Proof.
  intros HS HK Hsig HT.
  destruct (greek_d1 S K r sigma T HS HK Hsig HT) as (E1 & E2 & E3 & E4).
  unfold BlackScholesVega. rewrite E1. cbn [bind]. rewrite E2. cbn [bind].
  rewrite E3. cbn [bind]. rewrite E4. reflexivity.
Qed.

Lemma BlackVega_regular K F sigma T :
  0 < F -> 0 < K -> sigma <> 0 -> 0 < T ->
  BlackVega K F sigma T = Ok (F * pdf (d1_of (F / K) (sigma * sqrt T)) * sqrt T).
Proof.
  intros HF HK Hsig HT. pose proof (sqrt_lt_R0 T HT) as HsT.
  unfold BlackVega. rewrite fsqrt_ok by lra. cbn [bind].
  rewrite fdiv_ok by lra. cbn [bind].
  rewrite flog_ok by (now apply Rdiv_lt_0_compat). cbn [bind].
  rewrite fdiv_ok by nra. reflexivity.
Qed.

(** The price identity [S * pdf d1 = K * exp(-rT) * pdf d2]. *)
Lemma spot_strike_balance S K r T nu :
  0 < S -> 0 < K -> nu <> 0 ->
  S * pdf (d1_of (exp (r * T) * S / K) nu) =
  K * exp (- r * T) * pdf (d1_of (exp (r * T) * S / K) nu - nu).
Proof.
  intros HS HK Hnu. pose proof (exp_pos (r * T)) as He.
  rewrite pdf_shift; [|apply Rdiv_lt_0_compat; nra|assumption].
  replace (- r * T) with (- (r * T)) by ring. rewrite exp_Ropp. field. lra.
Qed.

Lemma d1_S_derivative S K r T nu :
  0 < S -> 0 < K -> nu <> 0 ->
  derivable_pt_lim (fun s => d1_of (exp (r * T) * s / K) nu) S (/ (S * nu)).
Proof.
  intros HS HK Hnu. pose proof (exp_pos (r * T)) as He. unfold d1_of.
  eapply dl_value.
  - apply dl_plus.
    + apply (derivable_pt_lim_div_scal (fun s => ln (exp (r * T) * s / K)) S
               (/ (exp (r * T) * S / K) * (exp (r * T) / K)) nu).
      apply (dl_comp (fun s => exp (r * T) * s / K) ln).
      * apply (derivable_pt_lim_div_scal (fun s => exp (r * T) * s) S (exp (r * T)) K).
        apply (dl_value _ _ (exp (r * T) * 1)); [|ring].
        apply (dl_scal (exp (r * T)) (fun s => s)). apply derivable_pt_lim_id.
      * apply derivable_pt_lim_ln. apply Rdiv_lt_0_compat; nra.
    + apply (derivable_pt_lim_const (nu / 2)).
  - field. repeat split; lra.
Qed.

Lemma price_S_derivative S K r sigma T phi :
  0 < S -> 0 < K -> 0 < T -> 1e-12 <= sigma * sqrt T ->
  phi = 1 \/ phi = -1 ->
  derivable_pt_lim (fun s => valof (BlackScholesPrice s K r sigma T phi)) S
    (phi * cdf (phi * d1_of (exp (r * T) * S / K) (sigma * sqrt T))).
Proof.
  intros HS HK HT Hnu Hphi.
  set (nu := sigma * sqrt T) in *.
  assert (Hnu0 : nu <> 0) by lra.
  apply (derivable_pt_lim_locally_ext
           (fun s => phi * ((fun s => s) s * cdf (phi * (fun s => d1_of (exp (r * T) * s / K) nu) s)
                            - (fun _ => K * exp (- r * T)) s
                              * cdf (phi * ((fun s => d1_of (exp (r * T) * s / K) nu) s
                                            - (fun _ => nu) s))))
           _ S (S / 2) (S + 1)).
  - lra.
  - intros s Hs. cbv beta. symmetry. apply price_regular; try lra. exact Hnu.
  - eapply dl_value.
    + apply (black_core_derivative (fun s => s) (fun _ => K * exp (- r * T))
               (fun s => d1_of (exp (r * T) * s / K) nu) (fun _ => nu)
               S 1 0 (/ (S * nu)) 0 phi Hphi).
      * apply derivable_pt_lim_id.
      * apply derivable_pt_lim_const.
      * now apply d1_S_derivative.
      * apply derivable_pt_lim_const.
      * cbv beta. now apply spot_strike_balance.
    + cbv beta. ring.
Qed.

Lemma delta_S_derivative S K r sigma T phi :
  0 < S -> 0 < K -> 0 < T -> sigma <> 0 ->
  phi = 1 \/ phi = -1 ->
  derivable_pt_lim (fun s => valof (BlackScholesDelta s K r sigma T phi)) S
    (pdf (d1_of (exp (r * T) * S / K) (sigma * sqrt T)) / S / (sigma * sqrt T)).
Proof.
  intros HS HK HT Hsig Hphi.
  pose proof (sqrt_lt_R0 T HT) as HsT.
  set (nu := sigma * sqrt T) in *.
  assert (Hnu0 : nu <> 0) by (unfold nu; nra).
  apply (derivable_pt_lim_locally_ext
           (fun s => phi * cdf (phi * d1_of (exp (r * T) * s / K) nu))
           _ S (S / 2) (S + 1)).
  - lra.
  - intros s Hs. rewrite delta_regular by lra. reflexivity.
  - eapply dl_value.
    + apply dl_scal. apply (dl_cdf_side phi (fun s => d1_of (exp (r * T) * s / K) nu)).
      now apply d1_S_derivative.
    + cbv beta. rewrite (pdf_side phi) by assumption.
      assert (P2 : phi * phi = 1) by (destruct Hphi as [->| ->]; ring).
      transitivity ((phi * phi) * (pdf (d1_of (exp (r * T) * S / K) nu) * / (S * nu))); [ring|].
      rewrite P2. field. lra.
Qed.

Lemma d1_r_derivative S K r T nu :
  0 < S -> 0 < K -> nu <> 0 ->
  derivable_pt_lim (fun x => d1_of (exp (x * T) * S / K) nu) r (T / nu).
Proof.
  intros HS HK Hnu.
  apply (derivable_pt_lim_ext (fun x => (ln (S / K) + T * x) / nu + nu / 2)).
  - intros x. unfold d1_of. do 2 f_equal.
    replace (exp (x * T) * S / K) with (S / K * exp (x * T)) by (field; lra).
    rewrite ln_mult, ln_exp; [ring|now apply Rdiv_lt_0_compat|apply exp_pos].
  - eapply dl_value.
    + apply dl_plus.
      * apply (derivable_pt_lim_div_scal (fun x => ln (S / K) + T * x) r (0 + T * 1) nu).
        apply (dl_plus (fun _ => ln (S / K)) (fun x => T * x)).
        -- apply derivable_pt_lim_const.
        -- apply (dl_scal T (fun x => x)). apply derivable_pt_lim_id.
      * apply (derivable_pt_lim_const (nu / 2)).
    + field. assumption.
Qed.

Lemma price_r_derivative S K r sigma T phi :
  0 < S -> 0 < K -> 0 < T -> 1e-12 <= sigma * sqrt T ->
  phi = 1 \/ phi = -1 ->
  derivable_pt_lim (fun x => valof (BlackScholesPrice S K x sigma T phi)) r
    (phi * K * T * exp (- r * T) *
     cdf (phi * (d1_of (exp (r * T) * S / K) (sigma * sqrt T) - sigma * sqrt T))).
Proof.
  intros HS HK HT Hnu Hphi.
  set (nu := sigma * sqrt T) in *.
  assert (Hnu0 : nu <> 0) by lra.
  apply (derivable_pt_lim_ext
           (fun x => phi * ((fun _ => S) x * cdf (phi * (fun x => d1_of (exp (x * T) * S / K) nu) x)
                            - (fun x => K * exp (- x * T)) x
                              * cdf (phi * ((fun x => d1_of (exp (x * T) * S / K) nu) x
                                            - (fun _ => nu) x))))).
  - intros x. cbv beta. symmetry. apply price_regular; try lra. exact Hnu.
  - eapply dl_value.
    + apply (black_core_derivative (fun _ => S) (fun x => K * exp (- x * T))
               (fun x => d1_of (exp (x * T) * S / K) nu) (fun _ => nu)
               r 0 (K * (exp (- r * T) * (- T))) (T / nu) 0 phi Hphi).
      * apply derivable_pt_lim_const.
      * apply dl_scal.
        apply (dl_comp (fun x => - x * T) exp r (- T) (exp (- r * T))).
        -- apply (derivable_pt_lim_ext (fun x => - T * x)); [intros; ring|].
           apply (dl_value _ _ (- T * 1)); [|ring].
           apply (dl_scal (- T) (fun x => x)). apply derivable_pt_lim_id.
        -- apply derivable_pt_lim_exp.
      * now apply d1_r_derivative.
      * apply derivable_pt_lim_const.
      * cbv beta. now apply spot_strike_balance.
    + cbv beta. ring.
Qed.

Lemma stddev_derivative sigma T :
  derivable_pt_lim (fun x => x * sqrt T) sigma (sqrt T).
Proof.
  apply (dl_value _ _ (1 * sqrt T)); [|ring].
  apply (derivable_pt_lim_scal_right (fun x => x) sigma 1 (sqrt T)).
  apply derivable_pt_lim_id.
Qed.

Lemma sigma_neighbourhood sigma T :
  0 < T -> 1e-12 < sigma * sqrt T ->
  1e-12 / sqrt T < sigma /\
  forall x, 1e-12 / sqrt T < x -> 1e-12 <= x * sqrt T.
Proof.
  intros HT Hnu. pose proof (sqrt_lt_R0 T HT) as HsT.
  assert (E : 1e-12 = 1e-12 / sqrt T * sqrt T) by (field; lra).
  split.
  - apply (Rmult_lt_reg_r (sqrt T)); [assumption|]. lra.
  - intros x Hx. rewrite E at 1. left. now apply Rmult_lt_compat_r.
Qed.

Lemma price_sigma_derivative S K r sigma T phi :
  0 < S -> 0 < K -> 0 < T -> 1e-12 < sigma * sqrt T ->
  phi = 1 \/ phi = -1 ->
  derivable_pt_lim (fun x => valof (BlackScholesPrice S K r x T phi)) sigma
    (S * pdf (d1_of (exp (r * T) * S / K) (sigma * sqrt T)) * sqrt T).
Proof.
  intros HS HK HT Hnu Hphi.
  pose proof (sqrt_lt_R0 T HT) as HsT.
  destruct (sigma_neighbourhood sigma T HT Hnu) as [Hlo Hreg].
  set (m := exp (r * T) * S / K).
  assert (Hm : 0 < m) by (unfold m; pose proof (exp_pos (r * T)); apply Rdiv_lt_0_compat; nra).
  apply (derivable_pt_lim_locally_ext
           (fun x => phi * ((fun _ => S) x * cdf (phi * (fun x => d1_of m (x * sqrt T)) x)
                            - (fun _ => K * exp (- r * T)) x
                              * cdf (phi * ((fun x => d1_of m (x * sqrt T)) x
                                            - (fun x => x * sqrt T) x))))
           _ sigma (1e-12 / sqrt T) (sigma + 1)).
  - lra.
  - intros x Hx. cbv beta. symmetry. apply price_regular; try lra. apply Hreg. lra.
  - eapply dl_value.
    + apply (black_core_derivative (fun _ => S) (fun _ => K * exp (- r * T))
               (fun x => d1_of m (x * sqrt T)) (fun x => x * sqrt T)
               sigma 0 0
               (((0 * (sigma * sqrt T) - 1 * ln m) / Rsqr (sigma * sqrt T) + 1 / 2) * sqrt T)
               (sqrt T) phi Hphi).
      * apply derivable_pt_lim_const.
      * apply derivable_pt_lim_const.
      * apply (dl_comp (fun x => x * sqrt T) (fun nu => d1_of m nu)).
        -- apply stddev_derivative.
        -- apply d1_of_derivable_nu. lra.
      * apply stddev_derivative.
      * cbv beta. unfold m. apply spot_strike_balance; lra.
    + cbv beta. unfold m. rewrite <- spot_strike_balance by lra. ring.
Qed.

Lemma Black_sigma_derivative F K sigma T phi :
  0 < F -> 0 < K -> 0 < T -> 1e-12 < sigma * sqrt T ->
  phi = 1 \/ phi = -1 ->
  derivable_pt_lim (fun x => valof (Black F K (x * sqrt T) phi)) sigma
    (F * pdf (d1_of (F / K) (sigma * sqrt T)) * sqrt T).
Proof.
  intros HF HK HT Hnu Hphi.
  pose proof (sqrt_lt_R0 T HT) as HsT.
  destruct (sigma_neighbourhood sigma T HT Hnu) as [Hlo Hreg].
  assert (Hm : 0 < F / K) by now apply Rdiv_lt_0_compat.
  apply (derivable_pt_lim_locally_ext
           (fun x => K * (fun nu => BlackOverK_formula (F / K) nu phi) ((fun x => x * sqrt T) x))
           _ sigma (1e-12 / sqrt T) (sigma + 1)).
  - lra.
  - intros x Hx. cbv beta. rewrite Black_regular; [reflexivity| |assumption|assumption].
    apply Hreg. lra.
  - eapply dl_value.
    + apply dl_scal.
      apply (dl_comp (fun x => x * sqrt T) (fun nu => BlackOverK_formula (F / K) nu phi)).
      * apply stddev_derivative.
      * apply formula_derivative_nu; [assumption|lra|assumption].
    + cbv beta. rewrite pdf_shift by lra. field. lra.
Qed.

Lemma price_regular_ok S K r sigma T phi :
  0 < S -> 0 < K -> 0 <= T -> 1e-12 <= sigma * sqrt T ->
  BlackScholesPrice S K r sigma T phi =
  Ok (phi * (S * cdf (phi * d1_of (exp (r * T) * S / K) (sigma * sqrt T))
             - K * exp (- r * T) *
               cdf (phi * (d1_of (exp (r * T) * S / K) (sigma * sqrt T) - sigma * sqrt T)))).
Proof.
  intros HS HK HT Hnu.
  pose proof (price_regular S K r sigma T phi HS HK HT Hnu) as E.
  pose proof (exp_pos (- r * T)) as Hdf.
  rewrite price_unfold in E |- * by assumption.
  rewrite Black_regular in E |- *; try assumption; try (now apply Rdiv_lt_0_compat).
  cbn [bind valof] in E |- *. now rewrite E.
Qed.

(** X1: on the regular branch of [Black], [BlackScholesDelta] is the
    partial derivative of the price with respect to the underlying. *)
Theorem delta_is_spot_derivative (S K r sigma T phi : R) :
  0 < S -> 0 < K -> 0 < T -> 1e-12 <= sigma * sqrt T ->
  phi = 1 \/ phi = -1 ->
  exists delta,
    BlackScholesDelta S K r sigma T phi = Ok delta /\
    derivable_pt_lim (fun s => valof (BlackScholesPrice s K r sigma T phi)) S delta.
Proof.
  intros HS HK HT Hnu Hphi.
  pose proof (sqrt_lt_R0 T HT) as HsT.
  assert (Hsig : sigma <> 0) by (intros ->; lra).
  eexists. split.
  - now apply delta_regular.
  - now apply price_S_derivative.
Qed.

Lemma delta_is_spot_derivative_witness :
  exists delta,
    BlackScholesDelta 1 1 0.01 0.15 1 1 = Ok delta /\
    derivable_pt_lim (fun s => valof (BlackScholesPrice s 1 0.01 0.15 1 1)) 1 delta.
Proof.
  apply (delta_is_spot_derivative 1 1 0.01 0.15 1 1); try rewrite sqrt_1; lra.
Defined.

(** X2: [BlackScholesGamma] is the partial derivative of
    [BlackScholesDelta] with respect to the underlying, for both sides. *)
Theorem gamma_is_delta_derivative (S K r sigma T phi : R) :
  0 < S -> 0 < K -> 0 < T -> sigma <> 0 ->
  phi = 1 \/ phi = -1 ->
  exists gamma,
    BlackScholesGamma S K r sigma T phi = Ok gamma /\
    derivable_pt_lim (fun s => valof (BlackScholesDelta s K r sigma T phi)) S gamma.
Proof.
  intros HS HK HT Hsig Hphi.
  eexists. split.
  - now apply gamma_regular.
  - now apply delta_S_derivative.
Qed.

Lemma gamma_is_delta_derivative_witness :
  exists gamma,
    BlackScholesGamma 1 1 0.01 0.15 1 1 = Ok gamma /\
    derivable_pt_lim (fun s => valof (BlackScholesDelta s 1 0.01 0.15 1 1)) 1 gamma.
Proof.
  apply (gamma_is_delta_derivative 1 1 0.01 0.15 1 1); lra.
Defined.

(** X3: on the regular branch of [Black], [BlackScholesRho] is the
    partial derivative of the price with respect to the rate. *)
Theorem rho_is_rate_derivative (S K r sigma T phi : R) :
  0 < S -> 0 < K -> 0 < T -> 1e-12 <= sigma * sqrt T ->
  phi = 1 \/ phi = -1 ->
  exists rho,
    BlackScholesRho S K r sigma T phi = Ok rho /\
    derivable_pt_lim (fun x => valof (BlackScholesPrice S K x sigma T phi)) r rho.
Proof.
  intros HS HK HT Hnu Hphi.
  pose proof (sqrt_lt_R0 T HT) as HsT.
  assert (Hsig : sigma <> 0) by (intros ->; lra).
  eexists. split.
  - now apply rho_regular.
  - now apply price_r_derivative.
Qed.

Lemma rho_is_rate_derivative_witness :
  exists rho,
    BlackScholesRho 1 1 0.01 0.15 1 1 = Ok rho /\
    derivable_pt_lim (fun x => valof (BlackScholesPrice 1 1 x 0.15 1 1)) 0.01 rho.
Proof.
  apply (rho_is_rate_derivative 1 1 0.01 0.15 1 1); try rewrite sqrt_1; lra.
Defined.

(** X4: for [sigma * sqrt T > 1e-12], [BlackScholesVega] is the partial
    derivative of the price with respect to the volatility. *)
Theorem vega_is_volatility_derivative (S K r sigma T phi : R) :
  0 < S -> 0 < K -> 0 < T -> 1e-12 < sigma * sqrt T ->
  phi = 1 \/ phi = -1 ->
  exists vega,
    BlackScholesVega S K r sigma T phi = Ok vega /\
    derivable_pt_lim (fun x => valof (BlackScholesPrice S K r x T phi)) sigma vega.
Proof.
  intros HS HK HT Hnu Hphi.
  pose proof (sqrt_lt_R0 T HT) as HsT.
  assert (Hsig : sigma <> 0) by (intros ->; lra).
  eexists. split.
  - now apply vega_regular.
  - now apply price_sigma_derivative.
Qed.

Lemma vega_is_volatility_derivative_witness :
  exists vega,
    BlackScholesVega 1 1 0.01 0.15 1 1 = Ok vega /\
    derivable_pt_lim (fun x => valof (BlackScholesPrice 1 1 0.01 x 1 1)) 0.15 vega.
Proof.
  apply (vega_is_volatility_derivative 1 1 0.01 0.15 1 1); try rewrite sqrt_1; lra.
Defined.

(** X5: [BlackVega(strike, forward, sigma, T)] is the derivative of
    [sigma -> Black(forward, strike, sigma*sqrt T, phi)], the same for
    calls and puts, and it is [BlackScholesVega] at zero rate. *)
Theorem BlackVega_is_volatility_derivative (F K sigma T phi : R) :
  0 < F -> 0 < K -> 0 < T -> 1e-12 < sigma * sqrt T ->
  phi = 1 \/ phi = -1 ->
  exists vega,
    BlackVega K F sigma T = Ok vega /\
    derivable_pt_lim (fun x => valof (Black F K (x * sqrt T) phi)) sigma vega /\
    BlackScholesVega F K 0 sigma T phi = Ok vega.
Proof.
  intros HF HK HT Hnu Hphi.
  pose proof (sqrt_lt_R0 T HT) as HsT.
  assert (Hsig : sigma <> 0) by (intros ->; lra).
  eexists. split; [now apply BlackVega_regular|]. split.
  - now apply Black_sigma_derivative.
  - rewrite vega_regular by assumption.
    replace (exp (0 * T) * F / K) with (F / K); [reflexivity|].
    rewrite Rmult_0_l, exp_0. field. lra.
Qed.

Lemma BlackVega_is_volatility_derivative_witness :
  exists vega,
    BlackVega 1 1 0.15 1 = Ok vega /\
    derivable_pt_lim (fun x => valof (Black 1 1 (x * sqrt 1) (-1))) 0.15 vega /\
    BlackScholesVega 1 1 0 0.15 1 (-1) = Ok vega.
Proof.
  apply (BlackVega_is_volatility_derivative 1 1 0.15 1 (-1)); try rewrite sqrt_1; lra.
Defined.

(** X6: the Black-Scholes equation.  On the regular branch the
    notebook's residual [L_v = -Theta + r*s*Delta + 0.5*sigma^2*s^2*Gamma
    - r*v] vanishes identically, for calls, puts and any other [phi]. *)
Theorem pricing_equation (K r sigma phi S T : R) :
  0 < S -> 0 < K -> 0 < T -> 1e-12 <= sigma * sqrt T ->
  L_v K r sigma phi S T = Ok 0.
Proof.
  intros HS HK HT Hnu.
  pose proof (sqrt_lt_R0 T HT) as HsT.
  assert (Hsig : 0 < sigma) by nra.
  unfold L_v.
  rewrite theta_regular by assumption. cbn [bind].
  rewrite delta_regular by lra. cbn [bind].
  rewrite gamma_regular by lra. cbn [bind].
  rewrite price_regular_ok by lra. cbn [bind].
  f_equal. replace 0.5 with (1 / 2) by lra. field. lra.
Qed.

Lemma pricing_equation_witness : L_v 1 0.01 0.15 1 1.2 1 = Ok 0.
Proof.
  apply (pricing_equation 1 0.01 0.15 1 1.2 1); try rewrite sqrt_1; lra.
Defined.

(** X7: put-call parity of the sensitivities: call delta minus put delta
    is [1], the rhos differ by [K*T*exp(-r*T)] and the thetas by
    [r*K*exp(-r*T)]. *)
Theorem greeks_call_put_parity (S K r sigma T : R) :
  0 < S -> 0 < K -> sigma <> 0 -> 0 < T ->
  exists dc dp rc rp tc tp,
    BlackScholesDelta S K r sigma T 1 = Ok dc /\
    BlackScholesDelta S K r sigma T (-1) = Ok dp /\
    BlackScholesRho S K r sigma T 1 = Ok rc /\
    BlackScholesRho S K r sigma T (-1) = Ok rp /\
    BlackScholesTheta S K r sigma T 1 = Ok tc /\
    BlackScholesTheta S K r sigma T (-1) = Ok tp /\
    dc - dp = 1 /\
    rc - rp = K * T * exp (- r * T) /\
    tc - tp = r * K * exp (- r * T).
Proof.
  intros HS HK Hsig HT.
  pose proof (sqrt_lt_R0 T HT) as HsT.
  destruct (greek_d1 S K r sigma T HS HK Hsig HT) as (E1 & E2 & E3 & E4).
  do 6 eexists.
  split; [now apply delta_regular|]. split; [now apply delta_regular|].
  split; [now apply rho_regular|]. split; [now apply rho_regular|].
  split.
  { unfold BlackScholesTheta. rewrite E1. cbn [bind]. rewrite E2. cbn [bind].
    rewrite E3. cbn [bind]. rewrite E4. cbn [bind].
    rewrite fdiv_ok by lra. reflexivity. }
  split.
  { unfold BlackScholesTheta. rewrite E1. cbn [bind]. rewrite E2. cbn [bind].
    rewrite E3. cbn [bind]. rewrite E4. cbn [bind].
    rewrite fdiv_ok by lra. reflexivity. }
  set (d1 := d1_of (exp (r * T) * S / K) (sigma * sqrt T)).
  fold (d1_of (exp (r * T) * S / K) (sigma * sqrt T)). fold d1.
  replace (-1 * d1) with (- d1) by ring.
  replace (-1 * (d1 - sigma * sqrt T)) with (- (d1 - sigma * sqrt T)) by ring.
  rewrite !cdf_symmetry, !Rmult_1_l.
  repeat split; ring.
Qed.

Lemma greeks_call_put_parity_witness :
  exists dc dp rc rp tc tp,
    BlackScholesDelta 1 1 0.01 0.15 1 1 = Ok dc /\
    BlackScholesDelta 1 1 0.01 0.15 1 (-1) = Ok dp /\
    BlackScholesRho 1 1 0.01 0.15 1 1 = Ok rc /\
    BlackScholesRho 1 1 0.01 0.15 1 (-1) = Ok rp /\
    BlackScholesTheta 1 1 0.01 0.15 1 1 = Ok tc /\
    BlackScholesTheta 1 1 0.01 0.15 1 (-1) = Ok tp /\
    dc - dp = 1 /\
    rc - rp = 1 * 1 * exp (- (0.01) * 1) /\
    tc - tp = 0.01 * 1 * exp (- (0.01) * 1).
Proof.
  apply (greeks_call_put_parity 1 1 0.01 0.15 1); lra.
Defined.

(** X8: in exact real arithmetic vega and gamma are positive and
    [vega = sigma*T*S^2*gamma]. *)
Theorem vega_gamma_identity (S K r sigma T phi : R) :
  0 < S -> 0 < K -> 0 < sigma -> 0 < T ->
  exists vega gamma,
    BlackScholesVega S K r sigma T phi = Ok vega /\
    BlackScholesGamma S K r sigma T phi = Ok gamma /\
    0 < vega /\ 0 < gamma /\
    vega = sigma * T * S ^ 2 * gamma.
Proof.
  intros HS HK Hsig HT.
  pose proof (sqrt_lt_R0 T HT) as HsT.
  pose proof (pdf_pos (d1_of (exp (r * T) * S / K) (sigma * sqrt T))) as Hp.
  do 2 eexists.
  split; [apply vega_regular; lra|]. split; [apply gamma_regular; lra|].
  split; [|split].
  - apply Rmult_lt_0_compat; [|assumption]. now apply Rmult_lt_0_compat.
  - apply Rdiv_lt_0_compat; [now apply Rdiv_lt_0_compat|nra].
  - set (P := pdf _). set (s := sqrt T) in *.
    assert (ET : T = s * s) by (symmetry; apply sqrt_sqrt; lra).
    clearbody P s. subst T. field. lra.
Qed.

Lemma vega_gamma_identity_witness :
  exists vega gamma,
    BlackScholesVega 1 1 0.01 0.15 1 1 = Ok vega /\
    BlackScholesGamma 1 1 0.01 0.15 1 1 = Ok gamma /\
    0 < vega /\ 0 < gamma /\
    vega = 0.15 * 1 * 1 ^ 2 * gamma.
Proof.
  apply (vega_gamma_identity 1 1 0.01 0.15 1 1); lra.
Defined.

(** X9: at [T = 0] the price is the payoff [max(phi*(S-K), 0)], for
    every volatility, rate, underlying and strike: nothing is divided by
    the zero standard deviation. *)
Theorem price_at_expiry (S K r sigma phi : R) :
  BlackScholesPrice S K r sigma 0 phi = Ok (Rmax (phi * (S - K)) 0).
Proof.
  rewrite price_unfold by lra.
  rewrite sqrt_0, Rmult_0_r, Rmult_0_r, exp_0.
  rewrite Black_degenerate by lra. cbn [bind].
  f_equal. rewrite Rmult_1_l. f_equal. f_equal. field.
Qed.

(** X10: in exact real arithmetic the price is, on the regular branch,
    strictly increasing in the volatility, so a price determines its
    volatility. *)
Theorem price_increasing_in_volatility (S K r sigma1 sigma2 T phi : R) :
  0 < S -> 0 < K -> 0 < T -> phi = 1 \/ phi = -1 ->
  1e-12 <= sigma1 * sqrt T -> sigma1 < sigma2 ->
  exists p1 p2,
    BlackScholesPrice S K r sigma1 T phi = Ok p1 /\
    BlackScholesPrice S K r sigma2 T phi = Ok p2 /\
    p1 < p2.
Proof.
  intros HS HK HT Hphi Hnu Hlt.
  pose proof (sqrt_lt_R0 T HT) as HsT.
  pose proof (exp_pos (- r * T)) as Hdf.
  assert (HF : 0 < S / exp (- r * T)) by now apply Rdiv_lt_0_compat.
  assert (Hnu2 : sigma1 * sqrt T < sigma2 * sqrt T) by nra.
  rewrite !price_unfold by lra.
  rewrite !Black_regular by lra. cbn [bind].
  do 2 eexists. split; [reflexivity|]. split; [reflexivity|].
  apply Rmult_lt_compat_l; [assumption|].
  apply Black_value_increasing; try assumption. lra.
Qed.

Lemma price_increasing_in_volatility_witness :
  exists p1 p2,
    BlackScholesPrice 1 1 0.01 0.15 1 1 = Ok p1 /\
    BlackScholesPrice 1 1 0.01 0.25 1 1 = Ok p2 /\
    p1 < p2.
Proof.
  apply (price_increasing_in_volatility 1 1 0.01 0.15 0.25 1 1);
    try rewrite sqrt_1; lra.
Defined.

Lemma Rmax_scale c x : 0 <= c -> Rmax (c * x) 0 = c * Rmax x 0.
Proof.
  intros Hc. rewrite <- (Rmult_0_r c) at 1. now apply RmaxRmult.
Qed.

(** X11: [Black] is homogeneous of degree one in (forward, strike):
    scaling both by [c > 0] scales the value by [c], and an undefined
    value stays undefined. *)
Theorem Black_homogeneous (c F K nu phi : R) :
  0 < c ->
  Black (c * F) (c * K) nu phi = (b <- Black F K nu phi ;; Ok (c * b)).
Proof.
  intros Hc. unfold Black. destruct (Rlt_dec nu 1e-12) as [Hnu|Hnu]; cbn [bind].
  - f_equal. rewrite <- Rmax_scale by lra. f_equal. ring.
  - unfold fdiv. destruct (Req_dec_T K 0) as [->|HK].
    + rewrite Rmult_0_r. destruct (Req_dec_T 0 0); [reflexivity|contradiction].
    + destruct (Req_dec_T (c * K) 0) as [E|_]; [nra|]. cbn [bind].
      replace (c * F / (c * K)) with (F / K) by (field; lra).
      destruct (BlackOverK (F / K) nu phi); cbn [bind]; [|reflexivity].
      f_equal. ring.
Qed.

Lemma Black_homogeneous_witness :
  Black (100 * 1.2) (100 * 1) 0.15 1 = (b <- Black 1.2 1 0.15 1 ;; Ok (100 * b)).
Proof.
  apply (Black_homogeneous 100 1.2 1 0.15 1). lra.
Defined.



Lemma forward_price S K r sigma T phi :
  0 < S -> 0 < K -> 0 < T -> 1e-12 <= sigma * sqrt T ->
  exists p,
    BlackScholesPrice S K r sigma T phi = Ok p /\
    exp (r * T) * p = K * BlackOverK_formula (exp (r * T) * S / K) (sigma * sqrt T) phi.
Proof.
  intros HS HK HT Hnu.
  pose proof (exp_pos (- r * T)) as Hdf.
  rewrite price_unfold by lra.
  rewrite Black_regular; [|assumption|now apply Rdiv_lt_0_compat|assumption].
  cbn [bind]. eexists. split; [reflexivity|].
  rewrite moneyness_forms by assumption.
  rewrite <- Rmult_assoc.
  replace (exp (r * T) * exp (- r * T)) with 1; [ring|].
  rewrite <- exp_plus. replace (r * T + - r * T) with 0 by ring. now rewrite exp_0.
Qed.

(** X28: the notebook's inversion of market prices, in exact real
    arithmetic.  The price of [BlackScholesPrice], compounded to the
    forward [exp(r*T)*S], is inverted by [BlackImpliedVol] to its
    volatility within [1e-6], for every rate and every root finder that
    meets the contract. *)
Theorem implied_vol_of_forward_price
  (brentq : root_finder) (S K r sigma T phi : R) :
  brentq_contract brentq ->
  0.05 < sigma < 1.0 -> 0.1 < T < 2 -> 0 < K -> 0 < S ->
  phi = 1 \/ phi = -1 ->
  exists p v,
    BlackScholesPrice S K r sigma T phi = Ok p /\
    BlackImpliedVol brentq (exp (r * T) * p) K (exp (r * T) * S) T phi = Ok v /\
    Rabs (v - sigma) < 1e-6.
Proof.
  intros Hc Hsig HT HK HS Hphi.
  pose proof (sqrt_bounds T HT) as Hs.
  pose proof (exp_pos (r * T)) as He.
  set (F := exp (r * T) * S).
  assert (HF : 0 < F) by (unfold F; nra).
  set (s := sqrt T) in *.
  set (g := fun nu => K * BlackOverK_formula (F / K) nu phi).
  assert (Hinc : forall a b, 0 < a -> a < b -> g a < g b)
    by (intros a b Ha Hab; now apply Black_value_increasing).
  assert (Hn : 0.01 * s < sigma * s < 1.00 * s) by nra.
  destruct (forward_price S K r sigma T phi HS HK ltac:(lra) ltac:(fold s; nra))
    as (p & Hp & Efwd).
  fold s in Efwd. fold F in Efwd. fold (g (sigma * s)) in Efwd.
  exists p. rewrite Efwd.
  assert (Htol : 0 < 1e-8) by lra.
  destruct (brentq_converges _ Hc (objective (g (sigma * s)) K F phi)
              (0.01 * s) (1.00 * s) 1e-8
              (g (0.01 * s) - g (sigma * s)) (g (1.00 * s) - g (sigma * s)))
    as [x Hx]; try lra.
  - intros y _. now apply objective_total.
  - apply objective_regular; lra.
  - apply objective_regular; lra.
  - assert (g (0.01 * s) < g (sigma * s)) by (apply Hinc; lra).
    assert (g (sigma * s) < g (1.00 * s)) by (apply Hinc; lra).
    nra.
  - destruct (solver_near_root brentq Hc (g (sigma * s)) K F phi
                (0.01 * s) (1.00 * s) x (sigma * s)) as [Hin Hnear];
      try assumption; try lra; try reflexivity.
    exists (x / s). split; [exact Hp|]. split.
    { rewrite BlackImpliedVol_unfold by lra. fold s. rewrite Hx. reflexivity. }
    pose proof rtol_small as Hr. pose proof rtol_pos as Hr0.
    assert (Hxabs : Rabs x <= 1.5) by (rewrite Rabs_right; lra).
    assert (Hb : Rabs (x - sigma * s) < 3e-7) by nra.
    apply Rabs_def2 in Hb. destruct Hb as [Hb1 Hb2].
    replace (x / s - sigma) with ((x - sigma * s) / s) by (field; lra).
    apply Rabs_def1.
    + apply (Rmult_lt_reg_r s); [lra|].
      unfold Rdiv. rewrite Rmult_assoc, Rinv_l, Rmult_1_r by lra. nra.
    + apply (Rmult_lt_reg_r s); [lra|].
      unfold Rdiv. rewrite Rmult_assoc, Rinv_l, Rmult_1_r by lra. nra.
Qed.

Lemma implied_vol_of_forward_price_witness :
  exists p v,
    BlackScholesPrice 1 1 0.05 0.30 1.4 (-1) = Ok p /\
    BlackImpliedVol bisection (exp (0.05 * 1.4) * p) 1 (exp (0.05 * 1.4) * 1) 1.4 (-1)
      = Ok v /\
    Rabs (v - 0.30) < 1e-6.
Proof.
  apply (implied_vol_of_forward_price bisection 1 1 0.05 0.30 1.4 (-1)
           bisection_contract); lra.
Defined.

End GreeksFacts.

(** * The lattice: order, recombination and counting *)

Module LatticeFacts.
Import CRR CRRFacts BS BSFacts Numpy CRRParams.

Section MoreLattice.

Variable self : CoxRossRubinsteinModel.

(** X13: in exact real arithmetic, for [-1 < d < u] every row of
    [gridPoints] is positive and strictly ascending. *)
Lemma lattice_ascending k i :
  -1 < d self < u self -> (k <= N self)%nat -> (i < k)%nat ->
  0 < nth i (nth k (gridPoints self) []) 0 /\
  nth i (nth k (gridPoints self) []) 0 < nth (i + 1) (nth k (gridPoints self) []) 0.
Proof.
  intros Hdu Hk Hi.
  rewrite !gridPoints_entry by lia.
  rewrite Nat.add_1_r.
  assert (Ha : 0 < 1 + d self) by lra.
  assert (Hb : 0 < 1 + u self) by lra.
  assert (Hp : 0 < (1 + d self) ^ (k - S i) * (1 + u self) ^ i)
    by (apply Rmult_lt_0_compat; apply pow_lt; assumption).
  replace (k - i)%nat with (S (k - S i)) by lia.
  cbn [pow].
  set (p := (1 + d self) ^ (k - S i) * (1 + u self) ^ i) in *.
  replace ((1 + d self) * (1 + d self) ^ (k - S i) * (1 + u self) ^ i)
    with ((1 + d self) * p) by (unfold p; ring).
  replace ((1 + d self) ^ (k - S i) * ((1 + u self) * (1 + u self) ^ i))
    with ((1 + u self) * p) by (unfold p; ring).
  clearbody p. split.
  - now apply Rmult_lt_0_compat.
  - apply Rmult_lt_compat_r; lra.
Qed.

(** X14: the lattice recombines: a down move from node [i] of step [k]
    leads to node [i] of step [k+1], an up move to node [i+1]. *)
Lemma lattice_recombines k i :
  (k < N self)%nat -> (i <= k)%nat ->
  nth i (nth (k + 1) (gridPoints self) []) 0 =
    (1 + d self) * nth i (nth k (gridPoints self) []) 0 /\
  nth (i + 1) (nth (k + 1) (gridPoints self) []) 0 =
    (1 + u self) * nth i (nth k (gridPoints self) []) 0.
Proof.
  intros Hk Hi. rewrite !gridPoints_entry by lia.
  replace (k + 1 - i)%nat with (S (k - i)) by lia.
  replace (k + 1 - (i + 1))%nat with (k - i)%nat by lia.
  replace (i + 1)%nat with (S i) by lia.
  cbn [pow]. split; ring.
Qed.

Lemma growth_firstn k row : growth k row = growth k (firstn k row).
Proof.
  revert row. induction k as [|k IH]; intros [|x row]; try reflexivity.
  cbn [firstn growth]. now rewrite IH.
Qed.

Lemma Forall_firstn_moves k row :
  Forall (fun x => x = d self \/ x = u self) row ->
  Forall (fun x => x = d self \/ x = u self) (firstn k row).
Proof.
  intros H. rewrite <- (firstn_skipn k row) in H.
  now apply Forall_app in H as [H _].
Qed.

(** X15: in exact real arithmetic every path visits a lattice node at
    every step: entry [k] of row [i] of [paths()] is [gridPoints[k][j]],
    with [j] the number of up moves among the first [k] moves of the
    [i]-th sequence. *)
Lemma path_on_lattice fuel i k :
  (1 <= N self)%nat -> (N self <= fuel)%nat ->
  (i < 2 ^ N self)%nat -> (k <= N self)%nat ->
  exists m P,
    moves self fuel None = Ok m /\ paths self fuel = Ok P /\
    (ups self (firstn k (nth i m [])) <= k)%nat /\
    nth k (nth i P []) 0 =
    nth (ups self (firstn k (nth i m []))) (nth k (gridPoints self) []) 0.
Proof.
  intros HN Hf Hi Hk.
  destruct (paths_row self fuel HN Hf) as (m & P & Hm & HP & Lm & LP & Hrow).
  exists m, P. split; [assumption|]. split; [assumption|].
  destruct (Hrow i Hi) as [Hin ->].
  apply all_moves_in in Hin as [Hlen Hall].
  pose proof (Forall_firstn_moves k _ Hall) as Hpre.
  destruct (growth_terminal self _ Hpre) as [Hle Heq].
  rewrite length_firstn, Hlen, Nat.min_l in Hle, Heq by assumption.
  split; [assumption|].
  rewrite path_of_nth, gridPoints_entry by lia.
  rewrite growth_firstn. exact Heq.
Qed.

(** X16: with [N = 0] the recursion of [moves()] never reaches its base
    case: [moves()] and [paths()] fail, whatever the stack size. *)
Lemma no_steps_no_paths fuel :
  N self = 0%nat ->
  moves self fuel None = Err RecursionLimit /\
  paths self fuel = Err RecursionLimit.
Proof.
  intros HN. assert (E : moves self fuel None = Err RecursionLimit).
  { unfold moves. rewrite HN. apply moves_rec_diverges. simpl. lia. }
  split; [exact E|]. unfold paths. now rewrite E.
Qed.

Lemma NoDup_map_cons (x : R) (l : list (list R)) :
  NoDup l -> NoDup (map (cons x) l).
Proof.
  induction 1 as [|row l Hnot Hl IH]; cbn [map]; constructor; [|assumption].
  intros Hin. apply in_map_iff in Hin as (b & E & Hb).
  injection E as ->. contradiction.
Qed.

Lemma all_moves_NoDup n : d self <> u self -> NoDup (all_moves self n).
Proof.
  intros Hdu. induction n as [|n IH]; cbn [all_moves].
  - constructor; [intros []|constructor].
  - apply NoDup_app.
    + now apply NoDup_map_cons.
    + now apply NoDup_map_cons.
    + intros row H1 H2. apply in_map_iff in H1 as (a & <- & _).
      apply in_map_iff in H2 as (b & E & _). injection E as E _. now apply Hdu.
Qed.

Lemma filter_ups_down n j :
  d self <> u self ->
  filter (fun row => (ups self row =? j)%nat) (map (cons (d self)) (all_moves self n))
  = map (cons (d self)) (filter (fun row => (ups self row =? j)%nat) (all_moves self n)).
Proof.
  intros Hdu. induction (all_moves self n) as [|row l IH]; [reflexivity|].
  cbn [map filter]. rewrite IH.
  replace (ups self (d self :: row)) with (ups self row).
  - destruct (ups self row =? j)%nat; reflexivity.
  - unfold ups. cbn [count_occ]. destruct (Req_dec_T (d self) (u self)); [contradiction|reflexivity].
Qed.

Lemma filter_ups_up n j :
  filter (fun row => (ups self row =? S j)%nat) (map (cons (u self)) (all_moves self n))
  = map (cons (u self)) (filter (fun row => (ups self row =? j)%nat) (all_moves self n)).
Proof.
  induction (all_moves self n) as [|row l IH]; [reflexivity|].
  cbn [map filter]. rewrite IH.
  replace (ups self (u self :: row)) with (S (ups self row)).
  - change (S (ups self row) =? S j)%nat with (ups self row =? j)%nat.
    destruct (ups self row =? j)%nat; reflexivity.
  - unfold ups. cbn [count_occ]. destruct (Req_dec_T (u self) (u self)); [reflexivity|contradiction].
Qed.

Lemma filter_ups_up_zero n :
  filter (fun row => (ups self row =? 0)%nat) (map (cons (u self)) (all_moves self n)) = [].
Proof.
  induction (all_moves self n) as [|row l IH]; [reflexivity|].
  cbn [map filter]. rewrite IH.
  replace (ups self (u self :: row)) with (S (ups self row)); [reflexivity|].
  unfold ups. cbn [count_occ]. destruct (Req_dec_T (u self) (u self)); [reflexivity|contradiction].
Qed.

Lemma sequences_zero n :
  d self <> u self -> sequences_with_ups self n 0 = 1%nat.
Proof.
  intros Hdu. unfold sequences_with_ups. induction n as [|n IH]; [reflexivity|].
  cbn [all_moves]. rewrite filter_app, length_app, filter_ups_down, filter_ups_up_zero by assumption.
  rewrite length_map, IH. reflexivity.
Qed.

Lemma sequences_succ n j :
  d self <> u self ->
  sequences_with_ups self (S n) (S j) =
  (sequences_with_ups self n (S j) + sequences_with_ups self n j)%nat.
Proof.
  intros Hdu. unfold sequences_with_ups. cbn [all_moves].
  rewrite filter_app, length_app, filter_ups_down, filter_ups_up by assumption.
  now rewrite !length_map.
Qed.

Lemma sequences_beyond n j :
  d self <> u self -> (n < j)%nat -> sequences_with_ups self n j = 0%nat.
Proof.
  intros Hdu. revert j. induction n as [|n IH]; intros j Hj.
  - destruct j; [lia|]. reflexivity.
  - destruct j as [|j]; [lia|]. rewrite sequences_succ, !IH by (assumption || lia).
    reflexivity.
Qed.

Lemma C_diag n : C n n = 1.
Proof.
  unfold C. rewrite Nat.sub_diag. simpl fact at 3. simpl INR at 3.
  field. apply INR_fact_neq_0.
Qed.

Lemma C_zero n : C n 0 = 1.
Proof.
  unfold C. rewrite Nat.sub_0_r. simpl fact at 2. simpl INR at 2.
  field. apply INR_fact_neq_0.
Qed.

Lemma sequences_binomial n j :
  d self <> u self -> (j <= n)%nat ->
  INR (sequences_with_ups self n j) = C n j.
Proof.
  intros Hdu. revert j. induction n as [|n IH]; intros j Hj.
  - assert (j = 0%nat) by lia. subst j. rewrite sequences_zero, C_zero by assumption.
    reflexivity.
  - destruct j as [|j].
    + rewrite sequences_zero, C_zero by assumption. reflexivity.
    + rewrite sequences_succ, plus_INR by assumption.
      destruct (Nat.eq_dec j n) as [->|Hne].
      * rewrite sequences_beyond, IH, !C_diag by (assumption || lia). simpl. ring.
      * rewrite !IH by lia. rewrite <- pascal by lia. ring.
Qed.

End MoreLattice.

Lemma lattice_ascending_witness :
  0 < nth 1 (nth 2 (gridPoints notebook_model) []) 0 /\
  nth 1 (nth 2 (gridPoints notebook_model) []) 0 <
  nth (1 + 1) (nth 2 (gridPoints notebook_model) []) 0.
Proof.
  apply (lattice_ascending notebook_model 2 1); simpl; (lra || lia).
Defined.

Lemma lattice_recombines_witness :
  nth 1 (nth (2 + 1) (gridPoints notebook_model) []) 0 =
    (1 + d notebook_model) * nth 1 (nth 2 (gridPoints notebook_model) []) 0 /\
  nth (1 + 1) (nth (2 + 1) (gridPoints notebook_model) []) 0 =
    (1 + u notebook_model) * nth 1 (nth 2 (gridPoints notebook_model) []) 0.
Proof.
  apply (lattice_recombines notebook_model 2 1); simpl; lia.
Defined.

Lemma path_on_lattice_witness :
  exists m P,
    moves notebook_model 10 None = Ok m /\ paths notebook_model 10 = Ok P /\
    (ups notebook_model (firstn 4 (nth 5 m [])) <= 4)%nat /\
    nth 4 (nth 5 P []) 0 =
    nth (ups notebook_model (firstn 4 (nth 5 m [])))
        (nth 4 (gridPoints notebook_model) []) 0.
Proof.
  apply (path_on_lattice notebook_model 10 5 4); simpl; lia.
Defined.

Lemma no_steps_no_paths_witness :
  moves no_step_model 1000 None = Err RecursionLimit /\
  paths no_step_model 1000 = Err RecursionLimit.
Proof.
  apply (no_steps_no_paths no_step_model 1000). reflexivity.
Defined.

(** X17: for [d <> u] no move sequence is listed twice by [moves(depth)]:
    together with the count [2^depth], every sequence over [{d, u}]
    appears exactly once. *)
Theorem moves_without_repetition (self : CoxRossRubinsteinModel) (depth : Z) :
  d self <> u self -> (1 <= depth)%Z ->
  exists M,
    (forall fuel, (depth <= Z.of_nat fuel)%Z ->
       moves self fuel (Some depth) = Ok M) /\
    NoDup M.
Proof.
  intros Hdu Hd. exists (all_moves self (Z.to_nat depth)). split.
  - intros fuel Hf. unfold moves.
    rewrite <- (Z2Nat.id depth) at 1 by lia. apply moves_rec_ok; lia.
  - now apply all_moves_NoDup.
Qed.

Lemma moves_without_repetition_witness :
  exists M,
    (forall fuel, (10 <= Z.of_nat fuel)%Z ->
       moves notebook_model fuel (Some 10%Z) = Ok M) /\
    NoDup M.
Proof.
  apply (moves_without_repetition notebook_model 10); simpl; (lra || lia).
Defined.

(** X18: for [d <> u] the number of move sequences of [moves(depth)] with
    exactly [j] up moves is the binomial coefficient [C(depth, j)]. *)
Theorem moves_binomial_count (self : CoxRossRubinsteinModel) (depth : Z) (j : nat) :
  d self <> u self -> (1 <= depth)%Z -> (j <= Z.to_nat depth)%nat ->
  exists M,
    (forall fuel, (depth <= Z.of_nat fuel)%Z ->
       moves self fuel (Some depth) = Ok M) /\
    INR (length (filter (fun row => (ups self row =? j)%nat) M)) =
    C (Z.to_nat depth) j.
Proof.
  intros Hdu Hd Hj. exists (all_moves self (Z.to_nat depth)). split.
  - intros fuel Hf. unfold moves.
    rewrite <- (Z2Nat.id depth) at 1 by lia. apply moves_rec_ok; lia.
  - now apply sequences_binomial.
Qed.

Lemma moves_binomial_count_witness :
  exists M,
    (forall fuel, (10 <= Z.of_nat fuel)%Z ->
       moves notebook_model fuel (Some 10%Z) = Ok M) /\
    INR (length (filter (fun row => (ups notebook_model row =? 3)%nat) M)) =
    C (Z.to_nat 10) 3.
Proof.
  apply (moves_binomial_count notebook_model 10 3); simpl; (lra || lia).
Defined.

End LatticeFacts.

(** * Time grid, diffusion parameters and Riemann-Stieltjes sums *)

Module GridFacts.
Import CRR CRRFacts BS BSFacts Numpy CRRParams Stochastic.

Lemma linspace_unfold a b num :
  (2 <= num)%nat ->
  linspace a b num =
  map (fun k => a + INR k * ((b - a) / INR (num - 1))) (seq 0 num).
Proof.
  intros H. destruct num as [|[|n]]; try lia.
  unfold linspace. replace (S (S n) - 1)%nat with (S n) by lia. reflexivity.
Qed.

Lemma linspace_length a b num : length (linspace a b num) = num.
Proof.
  destruct num as [|[|n]]; try reflexivity.
  unfold linspace. now rewrite length_map, length_seq.
Qed.

Lemma linspace_nth a b num k :
  (2 <= num)%nat -> (k < num)%nat ->
  nth k (linspace a b num) 0 = a + INR k * ((b - a) / INR (num - 1)).
Proof.
  intros H Hk. rewrite linspace_unfold by assumption.
  rewrite nth_map_seq by assumption. reflexivity.
Qed.

Lemma linspace_first a b num :
  (1 <= num)%nat -> nth 0 (linspace a b num) 0 = a.
Proof.
  intros H. destruct num as [|[|n]]; try lia; [reflexivity|].
  rewrite linspace_nth by lia. simpl INR at 1. ring.
Qed.

Lemma linspace_last a b num :
  (2 <= num)%nat -> nth (num - 1) (linspace a b num) 0 = b.
Proof.
  intros H. rewrite linspace_nth by lia. field.
  apply not_0_INR. lia.
Qed.

Section TimeGrid.

Variable self : CoxRossRubinsteinModel.

(** X19: for [N >= 1], [times] has one point per row of [gridPoints],
    starts at [0] and ends at [T] with the constant step [T / N]. *)
Lemma times_grid :
  (1 <= N self)%nat ->
  length (times self) = length (gridPoints self) /\
  nth 0 (times self) 0 = 0 /\
  nth (N self) (times self) 0 = T self /\
  (forall k, (k < N self)%nat ->
     nth (k + 1) (times self) 0 - nth k (times self) 0 = T self / INR (N self)).
Proof.
  intros HN. unfold times.
  split; [now rewrite linspace_length, gridPoints_length|].
  split; [apply linspace_first; lia|].
  split.
  - replace (N self) with (N self + 1 - 1)%nat at 1 by lia.
    apply linspace_last. lia.
  - intros k Hk. rewrite !linspace_nth by lia.
    replace (N self + 1 - 1)%nat with (N self) by lia.
    rewrite plus_INR. simpl INR at 2. field. apply not_0_INR. lia.
Qed.

Lemma exp_INR_ln x n : 0 < x -> exp (ln x * INR n) = x ^ n.
Proof.
  intros Hx. induction n as [|n IH].
  - simpl. rewrite Rmult_0_r. apply exp_0.
  - rewrite S_INR, Rmult_plus_distr_l, Rmult_1_r, exp_plus, IH, exp_ln by assumption.
    cbn [pow]. ring.
Qed.

Lemma parameters_regular :
  -1 < r self -> -1 < d self <= 0 -> 0 <= u self -> 0 < T self ->
  blackScholesParameters self =
  Ok (ln (1 + r self) * INR (N self) / T self,
      sqrt ((- ln (1 + d self) * sqrt (INR (N self) / T self))
            * (ln (1 + u self) * sqrt (INR (N self) / T self)))) /\
  0 <= - ln (1 + d self) * sqrt (INR (N self) / T self) /\
  0 <= ln (1 + u self) * sqrt (INR (N self) / T self).
Proof.
  intros Hr Hd Hu HT.
  assert (Hq : 0 <= INR (N self) / T self).
  { apply Rmult_le_pos; [apply pos_INR|]. left. now apply Rinv_0_lt_compat. }
  pose proof (sqrt_pos (INR (N self) / T self)) as Hs.
  assert (Hld : ln (1 + d self) <= 0).
  { destruct Hd as [Hd1 [Hd2|Hd2]].
    - left. rewrite <- ln_1. apply ln_increasing; lra.
    - rewrite Hd2, Rplus_0_r, ln_1. lra. }
  assert (Hlu : 0 <= ln (1 + u self)).
  { destruct Hu as [Hu|Hu].
    - left. rewrite <- ln_1. apply ln_increasing; lra.
    - rewrite <- Hu, Rplus_0_r, ln_1. lra. }
  assert (H1 : 0 <= - ln (1 + d self) * sqrt (INR (N self) / T self)) by nra.
  assert (H2 : 0 <= ln (1 + u self) * sqrt (INR (N self) / T self)) by nra.
  split; [|split; assumption].
  unfold blackScholesParameters.
  rewrite flog_ok by lra. cbn [bind]. rewrite fdiv_ok by lra. cbn [bind].
  rewrite flog_ok by lra. cbn [bind]. rewrite fdiv_ok by lra. cbn [bind].
  rewrite fsqrt_ok by assumption. cbn [bind].
  rewrite flog_ok by lra. cbn [bind].
  rewrite fsqrt_ok by (now apply Rmult_le_pos). reflexivity.
Qed.

End TimeGrid.

(** X20: the continuous rate of [blackScholesParameters] compounds to
    the lattice's [N] steps of rate [r]: [exp(rate * T) = (1+r)^N]. *)
Theorem continuous_rate_compounds (self : CoxRossRubinsteinModel) :
  -1 < r self -> -1 < d self <= 0 -> 0 <= u self -> 0 < T self ->
  exists rate sigma,
    blackScholesParameters self = Ok (rate, sigma) /\
    exp (rate * T self) = (1 + r self) ^ N self.
Proof.
  intros Hr Hd Hu HT.
  destruct (parameters_regular self Hr Hd Hu HT) as [E _].
  do 2 eexists. split; [exact E|].
  rewrite <- exp_INR_ln by lra. f_equal. field. lra.
Qed.

(** X21: for [-1 < d <= 0 <= u] the volatility of
    [blackScholesParameters] is the geometric mean of the down and the up
    volatility, and lies between them. *)
Theorem average_sigma_is_geometric_mean (self : CoxRossRubinsteinModel) :
  -1 < r self -> -1 < d self <= 0 -> 0 <= u self -> 0 < T self ->
  exists rate sigma,
    blackScholesParameters self = Ok (rate, sigma) /\
    let sigma_d := - ln (1 + d self) * sqrt (INR (N self) / T self) in
    let sigma_u := ln (1 + u self) * sqrt (INR (N self) / T self) in
    0 <= sigma /\ sigma * sigma = sigma_d * sigma_u /\
    Rmin sigma_d sigma_u <= sigma <= Rmax sigma_d sigma_u.
Proof.
  intros Hr Hd Hu HT.
  destruct (parameters_regular self Hr Hd Hu HT) as (E & H1 & H2).
  do 2 eexists. split; [exact E|]. cbv zeta.
  set (sd := - ln (1 + d self) * sqrt (INR (N self) / T self)) in *.
  set (su := ln (1 + u self) * sqrt (INR (N self) / T self)) in *.
  clearbody sd su.
  assert (Hp : 0 <= sd * su) by now apply Rmult_le_pos.
  pose proof (sqrt_pos (sd * su)) as Hs.
  pose proof (sqrt_sqrt (sd * su) Hp) as Hsq.
  split; [assumption|]. split; [assumption|].
  unfold Rmin, Rmax. destruct (Rle_dec sd su); split; nra.
Qed.

(** X22: on a symmetric tree, [(1+d)*(1+u) = 1], the volatility of
    [blackScholesParameters] reproduces the moves:
    [1+u = exp(sigma*sqrt(T/N))] and [1+d = exp(-sigma*sqrt(T/N))]. *)
Theorem symmetric_tree_volatility (self : CoxRossRubinsteinModel) :
  -1 < r self -> 0 < u self -> (1 + d self) * (1 + u self) = 1 ->
  0 < T self -> (1 <= N self)%nat ->
  exists rate sigma,
    blackScholesParameters self = Ok (rate, sigma) /\
    sigma = ln (1 + u self) * sqrt (INR (N self) / T self) /\
    exp (sigma * sqrt (T self / INR (N self))) = 1 + u self /\
    exp (- sigma * sqrt (T self / INR (N self))) = 1 + d self.
Proof.
  intros Hr Hu Hsym HT HN.
  assert (Hd : -1 < d self <= 0) by (split; nra).
  destruct (parameters_regular self Hr Hd ltac:(lra) HT) as (E & H1 & H2).
  assert (HNR : 0 < INR (N self)) by (apply lt_0_INR; lia).
  assert (Hld : ln (1 + d self) = - ln (1 + u self)).
  { rewrite <- ln_Rinv by lra. f_equal. apply (Rmult_eq_reg_r (1 + u self)); [|lra].
    rewrite Rinv_l by lra. exact Hsym. }
  assert (Hroots : sqrt (INR (N self) / T self) * sqrt (T self / INR (N self)) = 1).
  { rewrite <- sqrt_mult.
    - replace (INR (N self) / T self * (T self / INR (N self))) with 1 by (field; lra).
      apply sqrt_1.
    - apply Rlt_le. now apply Rdiv_lt_0_compat.
    - apply Rlt_le. now apply Rdiv_lt_0_compat. }
  set (s := sqrt (INR (N self) / T self)) in *.
  set (s' := sqrt (T self / INR (N self))) in *.
  assert (Hs : 0 <= s) by apply sqrt_pos.
  assert (Hlu : 0 < ln (1 + u self)) by (rewrite <- ln_1; apply ln_increasing; lra).
  assert (Esig : sqrt (- ln (1 + d self) * s * (ln (1 + u self) * s)) = ln (1 + u self) * s).
  { rewrite Hld, Ropp_involutive. apply sqrt_square. nra. }
  do 2 eexists. split; [exact E|]. rewrite Esig.
  split; [reflexivity|]. split.
  - replace (ln (1 + u self) * s * s') with (ln (1 + u self)) by nra.
    apply exp_ln. lra.
  - replace (- (ln (1 + u self) * s) * s') with (ln (1 + d self)) by nra.
    apply exp_ln. lra.
Qed.


Lemma times_grid_witness :
  length (times notebook_model) = length (gridPoints notebook_model) /\
  nth 0 (times notebook_model) 0 = 0 /\
  nth (N notebook_model) (times notebook_model) 0 = T notebook_model /\
  (forall k, (k < N notebook_model)%nat ->
     nth (k + 1) (times notebook_model) 0 - nth k (times notebook_model) 0
     = T notebook_model / INR (N notebook_model)).
Proof.
  apply (times_grid notebook_model). simpl. lia.
Defined.

Lemma continuous_rate_compounds_witness :
  exists rate sigma,
    blackScholesParameters notebook_model_with_rate = Ok (rate, sigma) /\
    exp (rate * T notebook_model_with_rate) =
    (1 + r notebook_model_with_rate) ^ N notebook_model_with_rate.
Proof.
  apply (continuous_rate_compounds notebook_model_with_rate); simpl; lra.
Defined.

Lemma average_sigma_is_geometric_mean_witness :
  exists rate sigma,
    blackScholesParameters notebook_model = Ok (rate, sigma) /\
    let sigma_d :=
      - ln (1 + d notebook_model) * sqrt (INR (N notebook_model) / T notebook_model) in
    let sigma_u :=
      ln (1 + u notebook_model) * sqrt (INR (N notebook_model) / T notebook_model) in
    0 <= sigma /\ sigma * sigma = sigma_d * sigma_u /\
    Rmin sigma_d sigma_u <= sigma <= Rmax sigma_d sigma_u.
Proof.
  apply (average_sigma_is_geometric_mean notebook_model); simpl; lra.
Defined.

Lemma symmetric_tree_volatility_witness :
  exists rate sigma,
    blackScholesParameters symmetric_model = Ok (rate, sigma) /\
    sigma = ln (1 + u symmetric_model)
            * sqrt (INR (N symmetric_model) / T symmetric_model) /\
    exp (sigma * sqrt (T symmetric_model / INR (N symmetric_model)))
      = 1 + u symmetric_model /\
    exp (- sigma * sqrt (T symmetric_model / INR (N symmetric_model)))
      = 1 + d symmetric_model.
Proof.
  apply (symmetric_tree_volatility symmetric_model); simpl; (lra || lia).
Defined.


(** *** Sums over consecutive pairs *)

Lemma increments_cons x y l :
  increments (x :: y :: l) = (y - x) :: increments (y :: l).
Proof. reflexivity. Qed.

Lemma weighted_sum_step rho (f : R -> R) x y l :
  zip_with Rmult
    (zip_with Rplus (map (Rmult rho) (tl (x :: y :: l)))
                    (map (Rmult (1 - rho)) (removelast (x :: y :: l))))
    (increments (x :: y :: l)) =
  (rho * y + (1 - rho) * x) * (y - x) ::
  zip_with Rmult
    (zip_with Rplus (map (Rmult rho) (tl (y :: l)))
                    (map (Rmult (1 - rho)) (removelast (y :: l))))
    (increments (y :: l)).
Proof. reflexivity. Qed.

Lemma self_sum_identity rho l :
  sum (zip_with Rmult
         (zip_with Rplus (map (Rmult rho) (tl l))
                         (map (Rmult (1 - rho)) (removelast l)))
         (increments l)) =
  (last l 0 ^ 2 - hd 0 l ^ 2) / 2
  + (rho - 1 / 2) * sum (map (fun dx => Rabs dx ^ 2) (increments l)).
Proof.
  destruct l as [|x l]; [simpl; lra|].
  revert x. induction l as [|y l IH]; intros x.
  - simpl. lra.
  - rewrite (weighted_sum_step rho (fun v => v)), increments_cons.
    cbn [sum fold_right map]. fold (sum (zip_with Rmult
         (zip_with Rplus (map (Rmult rho) (tl (y :: l)))
                         (map (Rmult (1 - rho)) (removelast (y :: l))))
         (increments (y :: l)))).
    fold (sum (map (fun dx => Rabs dx ^ 2) (increments (y :: l)))).
    rewrite IH. rewrite pow2_abs.
    change (last (x :: y :: l) 0) with (last (y :: l) 0).
    cbn [hd]. field.
Qed.

Lemma constant_sum_identity rho c l :
  sum (zip_with Rmult
         (zip_with Rplus (map (Rmult rho) (tl (map (fun _ => c) l)))
                         (map (Rmult (1 - rho)) (removelast (map (fun _ => c) l))))
         (increments l)) =
  c * (last l 0 - hd 0 l).
Proof.
  destruct l as [|x l]; [simpl; lra|].
  revert x. induction l as [|y l IH]; intros x.
  - simpl. lra.
  - specialize (IH y).
    change (sum (zip_with Rmult
         (zip_with Rplus (map (Rmult rho) (tl (map (fun _ => c) (x :: y :: l))))
            (map (Rmult (1 - rho)) (removelast (map (fun _ => c) (x :: y :: l)))))
         (increments (x :: y :: l))))
      with ((rho * c + (1 - rho) * c) * (y - x) +
            sum (zip_with Rmult
              (zip_with Rplus (map (Rmult rho) (tl (map (fun _ => c) (y :: l))))
                 (map (Rmult (1 - rho)) (removelast (map (fun _ => c) (y :: l)))))
              (increments (y :: l)))).
    rewrite IH. change (last (x :: y :: l) 0) with (last (y :: l) 0).
    cbn [hd]. ring.
Qed.

Lemma weighted_sum_linear rho (ys xs : list R) :
  sum (zip_with Rmult
         (zip_with Rplus (map (Rmult rho) (tl ys))
                         (map (Rmult (1 - rho)) (removelast ys)))
         (increments xs)) =
  (1 - rho) *
  sum (zip_with Rmult
         (zip_with Rplus (map (Rmult 0) (tl ys))
                         (map (Rmult (1 - 0)) (removelast ys)))
         (increments xs))
  + rho *
  sum (zip_with Rmult
         (zip_with Rplus (map (Rmult 1) (tl ys))
                         (map (Rmult (1 - 1)) (removelast ys)))
         (increments xs)).
Proof.
  unfold increments.
  generalize (tl ys) (removelast ys) (zip_with Rminus (tl xs) (removelast xs)).
  intros a. induction a as [|a0 a IH]; intros b c; [simpl; ring|].
  destruct b as [|b0 b]; [simpl; ring|].
  destruct c as [|c0 c]; [simpl; ring|].
  cbn [map zip_with sum fold_right].
  specialize (IH b c). unfold sum in IH. rewrite IH. ring.
Qed.


Lemma dyadic_grid a b n :
  hd 0 (linspace a b (2 ^ n + 1)) = a /\ last (linspace a b (2 ^ n + 1)) 0 = b /\
  linspace a b (2 ^ n + 1) <> [].
Proof.
  assert (H2 : (2 <= 2 ^ n + 1)%nat).
  { pose proof (Nat.pow_nonzero 2 n). lia. }
  pose proof (linspace_length a b (2 ^ n + 1)) as Hl.
  pose proof (linspace_first a b (2 ^ n + 1) ltac:(lia)) as Hf.
  pose proof (linspace_last a b (2 ^ n + 1) H2) as Hlast.
  destruct (linspace a b (2 ^ n + 1)) as [|x l] eqn:E.
  - simpl in Hl. lia.
  - split; [exact Hf|]. split; [|discriminate].
    rewrite last_is_nth, Hl. exact Hlast.
Qed.

Lemma hd_map (f : R -> R) l : l <> [] -> hd 0 (map f l) = f (hd 0 l).
Proof. destruct l; [contradiction|reflexivity]. Qed.

Lemma last_map (f : R -> R) l : l <> [] -> last (map f l) 0 = f (last l 0).
Proof.
  induction l as [|x [|y l] IH]; intros H; [contradiction|reflexivity|].
  change (last (map f (x :: y :: l)) 0) with (last (map f (y :: l)) 0).
  rewrite IH by discriminate. reflexivity.
Qed.

(** X24: for the integrand [Y = X] the sum of [integral] is
    [(X(b)^2 - X(a)^2)/2 + (rho - 1/2) * variation(X, a, b, n, 2)] on every
    partition: exact at the midpoint rule [rho = 1/2], and off by half the
    quadratic variation at [rho = 0] and [rho = 1]. *)
Theorem ito_stratonovich (X : R -> R) (a b : R) (n : nat) (rho : R) :
  integral X X a b n rho =
  (X b ^ 2 - X a ^ 2) / 2 + (rho - 1 / 2) * variation X a b n 2.
Proof.
  destruct (dyadic_grid a b n) as (Hh & Hl & Hne).
  unfold integral, variation. rewrite self_sum_identity.
  rewrite hd_map, last_map, Hh, Hl by assumption. reflexivity.
Qed.

(** X25: for an integrand that returns the array with [c] at every
    point of the grid, the sum telescopes to [c * (X(b) - X(a))]. *)
Theorem integral_of_constant (c : R) (X : R -> R) (a b : R) (n : nat) (rho : R) :
  integral (fun _ => c) X a b n rho = c * (X b - X a).
Proof.
  destruct (dyadic_grid a b n) as (Hh & Hl & Hne).
  unfold integral.
  replace (map (fun _ : R => c) (linspace a b (2 ^ n + 1)))
    with (map (fun _ : R => c) (map X (linspace a b (2 ^ n + 1))))
    by (rewrite map_map; reflexivity).
  rewrite constant_sum_identity.
  rewrite hd_map, last_map, Hh, Hl by assumption. reflexivity.
Qed.

(** X26: [integral] is affine in [rho]: every sum is the mixture of the
    left-point sum ([rho = 0]) and the right-point sum ([rho = 1]). *)
Theorem integral_linear_in_rho (Y X : R -> R) (a b : R) (n : nat) (rho : R) :
  integral Y X a b n rho =
  (1 - rho) * integral Y X a b n 0 + rho * integral Y X a b n 1.
Proof. unfold integral. apply weighted_sum_linear. Qed.


End GridFacts.

(** * Rounding: where binary64 departs from the real numbers *)

Module F64Facts.
Import PrimFloat FloatOps SpecFloat QArith Qabs F64.
#[local] Set Warnings "-inexact-float".
Local Open Scope float_scope.

(** The first step of [brentq] is met by a root finder. *)
Lemma bisection_first_step : returns_lower_end_if_root bisection.
Proof. intros f a b xtol H. unfold bisection. now rewrite H. Qed.

(** What the statements below assume of [np.exp], [np.log], [norm.cdf]
    and [brentq] holds of some functions: the exponential of zero is
    one, the two sampled values are within one unit in the last place,
    the distribution function has underflowed at [-39], and the root
    finder returns a bracket end that is a root. *)
Lemma library_assumptions_hold :
  exists (np_exp np_log norm_cdf : float -> float) (brentq : root_finder),
    np_exp (- 0 * 1) = 1 /\ np_exp (- 0 * 0.11) = 1 /\
    within_one_ulp 0.951229424500714 (np_exp (-0.05 * 1)) /\
    within_one_ulp (-1.0986122886681098) (np_log (1 / 3)) /\
    (forall x, (x <=? -39) = true -> norm_cdf x = 0) /\
    returns_lower_end_if_root brentq.
Proof.
  exists (fun x => if x =? 0 then 1 else 0.951229424500714),
         (fun _ => -1.0986122886681098),
         (fun x => if x <=? -39 then 0 else 0.5),
         bisection.
  split; [vm_compute; reflexivity|]. split; [vm_compute; reflexivity|].
  split; [right; left; vm_compute; reflexivity|].
  split; [right; left; reflexivity|].
  split; [intros x H; cbv beta; now rewrite H|].
  exact bisection_first_step.
Qed.

(** C2 as stated fails in binary64, in the zero-variance branch.  With
    [S = 1e9], [K = 0.3], [r = 0], [sigma = 0], [T = 1] the call is the
    float nearest to [S - K], the put is [0], and the exact difference
    of the two floats is off [S - K * exp(0)] by more than [4e-8].  With
    [S = 3e9], [K = 1e9], [r = 0.05], [sigma = 0], [T = 1] the test
    [|(call - put) - (S - K * np.exp(-r*T))| < 1e-9], evaluated in
    binary64 as the code would, fails by [2.4e-7], whichever of the
    three floats around [exp(-0.05)] the library returns. *)
Lemma parity_exceeds_tolerance_in_binary64 :
  (forall np_exp np_log norm_cdf : float -> float,
     np_exp (- 0 * 1) = 1 ->
     let c := BlackScholesPrice np_exp np_log norm_cdf 1e9 0.3 0 0 1 1 in
     let p := BlackScholesPrice np_exp np_log norm_cdf 1e9 0.3 0 0 1 (-1) in
     (1 # 1000000000 < Qabs (to_Q c - to_Q p - (to_Q 1e9 - to_Q 0.3 * 1)))%Q) /\
  (forall np_exp np_log norm_cdf : float -> float,
     within_one_ulp 0.951229424500714 (np_exp (- 0.05 * 1)) ->
     let c := BlackScholesPrice np_exp np_log norm_cdf 3e9 1e9 0.05 0 1 1 in
     let p := BlackScholesPrice np_exp np_log norm_cdf 3e9 1e9 0.05 0 1 (-1) in
     (1e-9 <? abs ((c - p) - (3e9 - 1e9 * np_exp (- 0.05 * 1)))) = true).
Proof.
  split; intros np_exp np_log norm_cdf H c p; subst c p;
    unfold BlackScholesPrice; cbv zeta.
  - rewrite H. vm_compute. reflexivity.
  - change (- (0.05) * 1) with (-0.05 * 1).
    destruct H as [E|[E|E]]; rewrite E; vm_compute; reflexivity.
Qed.

(** C10 as stated fails in binary64.  With [T = 0.65 * 2^-90] both ends
    of the bracket are below the threshold of [Black], so the objective
    for the price [0] of an at-the-money option is zero at the lower end
    [0.01 * sqrt T], [brentq] returns that end, and its quotient by
    [sqrt T] rounds to the float below [0.01]: the call returns
    [0.009999999999999998].  The lower end of the bracket rounds in the
    same way at [T = 0.65]. *)
Lemma implied_vol_below_bracket_in_binary64 :
  (to_Q (0.01 * sqrt 0.65 / sqrt 0.65) < 1 # 100)%Q /\
  (0 < to_Q (0.65 * 0x1p-90))%Q /\
  forall (np_log norm_cdf : float -> float) (brentq : root_finder),
    returns_lower_end_if_root brentq ->
    exists v,
      BlackImpliedVol np_log norm_cdf brentq 0 1 1 (0.65 * 0x1p-90) 1 = Ok v /\
      (to_Q v < 1 # 100)%Q.
Proof.
  split; [vm_compute; reflexivity|]. split; [vm_compute; reflexivity|].
  intros np_log norm_cdf brentq Hb. unfold BlackImpliedVol.
  rewrite Hb by (vm_compute; reflexivity). cbn [bind].
  eexists. split; [reflexivity|]. vm_compute. reflexivity.
Qed.

(** C6 as stated fails in binary64, far from the money.  With
    [sigma = 0.06], [T = 0.11], [K = 3], [F = 1] and a call, both
    arguments of [norm.cdf] are near [-55], where the distribution
    function underflows to [0.0]: the price is [0.0], at zero rate too.
    On that price the objective is zero at the lower end of the bracket,
    which [brentq] returns, and [BlackImpliedVol] answers [0.01], not
    [0.06]. *)
Lemma round_trip_lost_to_underflow :
  (5 # 100 < to_Q 0.06)%Q /\ (to_Q 0.06 < 1)%Q /\
  (1 # 10 < to_Q 0.11)%Q /\ (to_Q 0.11 < 2)%Q /\
  forall (np_exp np_log norm_cdf : float -> float) (brentq : root_finder),
    np_exp (- 0 * 0.11) = 1 ->
    within_one_ulp (-1.0986122886681098) (np_log (1 / 3)) ->
    (forall x, (x <=? -39) = true -> norm_cdf x = 0) ->
    returns_lower_end_if_root brentq ->
    Black np_log norm_cdf 1 3 (0.06 * sqrt 0.11) 1 = 0 /\
    BlackScholesPrice np_exp np_log norm_cdf 1 3 0 0.06 0.11 1 = 0 /\
    exists v,
      BlackImpliedVol np_log norm_cdf brentq 0 3 1 0.11 1 = Ok v /\
      (1 # 1000000 < Qabs (to_Q v - to_Q 0.06))%Q.
Proof.
  do 4 (split; [vm_compute; reflexivity|]).
  intros np_exp np_log norm_cdf brentq Hexp Hlog Hcdf Hb.
  split; [|split].
  - unfold Black, BlackOverK. cbv zeta.
    destruct Hlog as [E|[E|E]]; rewrite E;
      rewrite !Hcdf by (vm_compute; reflexivity); vm_compute; reflexivity.
  - unfold BlackScholesPrice, Black, BlackOverK. cbv zeta. rewrite Hexp.
    destruct Hlog as [E|[E|E]].
    all: replace (np_log (1 / 1 / 3)) with (np_log (1 / 3))
           by (f_equal; vm_compute; reflexivity).
    all: rewrite E; rewrite !Hcdf by (vm_compute; reflexivity);
      vm_compute; reflexivity.
  - unfold BlackImpliedVol. rewrite Hb; cbn [bind].
    + eexists. split; [reflexivity|]. vm_compute. reflexivity.
    + unfold objective, Black, BlackOverK. cbv zeta.
      destruct Hlog as [E|[E|E]]; rewrite E;
        rewrite !Hcdf by (vm_compute; reflexivity); vm_compute; reflexivity.
Qed.
End F64Facts.
